(** * Form validation of [src/runtime/components/forms/Form.vue]

    A shallow embedding of the script of the form component: the error
    collection [errors], the adapters for the four schema libraries, the
    validation pass [getErrors], [validate], the submit handler [onSubmit],
    the event-bus listener and the methods the component exposes
    ([setErrors], [getErrors], [clear]).

    JavaScript is modelled as follows.
    - An [async] function is run to completion: every [await] is plain
      sequencing, so two passes never interleave.
    - A computation is a function from the component's store to a completion
      (a value, or a thrown exception) and the store it leaves; what was
      written before a [throw] stays written.
    - Calls that leave the component (the [validate] prop, the entry points
      of a schema) are functions of the form state that return a completion;
      each call is recorded in the store's [trace], in order.
    - The union types of the TypeScript declarations are followed: a path
      segment is a string or a number (numbers are integers: array indices),
      a message is a string. *)

From stdpp Require Import gmap strings list pretty.

(** ** Values *)

(** A path segment of Zod, Joi and Valibot: [string | number]. *)
Inductive Key :=
| KString (s : string)
| KNumber (n : Z).

(** [String(k)], as [Array.prototype.join] applies it to each element. An
    integer is printed in full, as JavaScript does below [10^21] (array
    indices are far below). *)
Definition Key_toString (k : Key) : string :=
  match k with
  | KString s => s
  | KNumber n => pretty n
  end.

(** [keys.join(sep)]: the empty array gives the empty string. *)
Definition join (sep : string) (keys : list Key) : string :=
  String.concat sep (Key_toString <$> keys).

(** The value of a property of an object that is read by duck typing.
    [Undefined] is both "no such property" and a property that holds
    [undefined]: the code cannot tell them apart. [F] is the type of the
    function when the property is callable. *)
Inductive Field (F : Type) :=
| Undefined
| Null
| Boolean (b : bool)
| Number (n : Z)
| Str (s : string)
| Object
| Function (f : F).
Arguments Undefined {F}.
Arguments Null {F}.
Arguments Boolean {F} b.
Arguments Number {F} n.
Arguments Str {F} s.
Arguments Object {F}.
Arguments Function {F} f.

(** [x !== undefined] *)
Definition defined {F} (x : Field F) : bool :=
  match x with
  | Undefined => false
  | _ => true
  end.

(** [ToBoolean(x)], the test of [if (x)] and of [x && y]. *)
Definition truthy {F} (x : Field F) : bool :=
  match x with
  | Undefined | Null => false
  | Boolean b => b
  | Number n => negb (n =? 0)%Z
  | Str s => negb (String.eqb s "")
  | Object | Function _ => true
  end.

(** [if (path)] on an optional string: the path when it is given and not
    the empty string. *)
Definition given (path : option string) : option string :=
  match path with
  | Some p => if decide (p = "") then None else Some p
  | None => None
  end.

(** ** The error model: [FormError] of [types/form] *)

Module FormError.
Record t := mk { path : string; message : string }.
End FormError.

#[global] Instance FormError_eq_dec : EqDecision FormError.t.
Proof. solve_decision. Defined.

(** The members that every plain object inherits from [Object.prototype]. *)
Definition Object_prototype : list string :=
  ["constructor"; "hasOwnProperty"; "isPrototypeOf"; "propertyIsEnumerable";
   "toLocaleString"; "toString"; "valueOf"; "__proto__";
   "__defineGetter__"; "__defineSetter__";
   "__lookupGetter__"; "__lookupSetter__"].

(** The value of [object[key]] for a plain object whose own properties hold
    strings: the own property; failing that, the member of
    [Object.prototype] of that name; failing that, [undefined]. *)
Inductive Property :=
| Own (value : string)
| Inherited (member : string)
| NoProperty.

Definition get_property (object : gmap string string) (key : string)
    : Property :=
  match object !! key with
  | Some value => Own value
  | None =>
      if bool_decide (key ∈ Object_prototype) then Inherited key
      else NoProperty
  end.

(** [FormErrorEvent['errors']]: an error with the id of its input. *)
Module FormErrorWithId.
Record t := mk { path : string; message : string; id : Property }.
End FormErrorWithId.

(** [FormEventType] and [FormEvent] of [types/form]. *)
Inductive FormEventType := Blur | Input | Change | Submit.

#[global] Instance FormEventType_eq_dec : EqDecision FormEventType.
Proof. solve_decision. Defined.

Module FormEvent.
Record t := mk { type : FormEventType; path : string }.
End FormEvent.

(** ** What the schema libraries hand back *)

Module Zod.
(** [ZodIssue]: [path: (string | number)[]], [message: string]. *)
Record Issue := mkIssue { path : list Key; message : string }.
(** [SafeParseReturnType]: [{ success: true, data }] or
    [{ success: false, error: { issues } }]; [data] is not read. *)
Inductive SafeParseResult :=
| Success
| Failure (issues : list Issue).
End Zod.

Module Yup.
(** An element of [ValidationError.inner]: [path?: string]. *)
Record Issue := mkIssue { path : option string; message : string }.
End Yup.

Module Joi.
(** [ValidationErrorItem]: [path: (string | number)[]]. *)
Record Detail := mkDetail { path : list Key; message : string }.
End Joi.

Module Valibot.
(** [PathItem]: only [key] is read. *)
Record PathItem := mkPathItem { key : Key }.
(** [Issue]: [path?: PathItem[]]. *)
Record Issue := mkIssue { path : option (list PathItem); message : string }.
(** The result of [_parse]: [{ output }] or [{ issues }]. *)
Record Result := mkResult { issues : option (list Issue) }.
End Valibot.

(** ** Exceptions *)

(** An error object thrown by code outside the component, with the
    properties the component inspects: [inner] ([None] when undefined),
    whether [isJoi === true], and [details]. *)
Module JsError.
Record t := mk {
  name : string;
  message : string;
  inner : option (list Yup.Issue);
  isJoi : bool;
  details : list Joi.Detail
}.
End JsError.

(** A thrown value: an instance of the component's own class
    [FormException], or any other error object. *)
Inductive Exn :=
| FormException (message : string)
| Thrown (error : JsError.t).

(** [new Error(message)] *)
Definition Error (message : string) : Exn :=
  Thrown (JsError.mk "Error" message None false []).

(** [new TypeError(message)], raised by a call of a non-function. *)
Definition TypeError (message : string) : Exn :=
  Thrown (JsError.mk "TypeError" message None false []).

(** [error instanceof FormException] *)
Definition instanceof_FormException (error : Exn) : bool :=
  match error with
  | FormException _ => true
  | Thrown _ => false
  end.

Inductive Completion (A : Type) :=
| Normal (a : A)
| Throw (e : Exn).
Arguments Normal {A} a.
Arguments Throw {A} e.

(** ** The host *)

(** What the embedding application fixes: the type of the form state, the
    DOM submit event, and the built-in [JSON.stringify(errors, null, 2)]. *)
Class Host := {
  State : Type;
  SubmitEvent : Type;
  JSON_stringify : list FormError.t → string
}.

(** ** The schema object and the props *)

Module Schema.
(** The properties of the [schema] prop that the component reads. *)
Record t `{Host} := mk {
  parse : Field unit;
  safeParseAsync : Field (State → Completion Zod.SafeParseResult);
  validate : Field (State → Completion unit);
  __isYupSchema__ : Field unit;
  validateAsync : Field (State → Completion unit);
  id : Field unit;
  _parse : Field (State → Completion Valibot.Result)
}.
End Schema.

Module Props.
Record t `{Host} := mk {
  schema : option Schema.t;
  state : State;
  validate : State → Completion (list FormError.t);
  validateOn : option (list FormEventType);
  disabled : bool
}.
(** The defaults of [validate] and [validateOn]. *)
Definition default_validate `{Host} : State → Completion (list FormError.t) :=
  λ _, Normal [].
Definition default_validateOn : option (list FormEventType) :=
  Some [Blur; Input; Change; Submit].
End Props.

(** ** The store and the computations over it *)

(** The payloads of [emit('submit', _)] and [emit('error', _)]. *)
Inductive Emitted `{Host} :=
| EmitSubmit (event : SubmitEvent) (data : State)
| EmitError (event : SubmitEvent) (errors : list FormErrorWithId.t).

(** The functions called outside the component. *)
Inductive Callee :=
| props_validate
| schema_safeParseAsync
| schema_validate
| schema_validateAsync
| schema__parse.

#[global] Instance Callee_eq_dec : EqDecision Callee.
Proof. solve_decision. Defined.

Module Store.
Record t `{Host} := mk {
  errors : list FormError.t;    (* [const errors = ref<FormError[]>([])] *)
  inputs : gmap string string;  (* the own properties of [inputs = ref({})] *)
  emitted : list Emitted;       (* the events emitted so far, oldest first *)
  trace : list Callee           (* the outside calls so far, oldest first *)
}.
Definition initial `{Host} : t := mk _ [] ∅ [] [].
End Store.

(** The store after one more outside call, after a write of the
    collection, and after one more emitted event. *)
Definition called `{Host} (c : Callee) (σ : Store.t) : Store.t :=
  Store.mk _ (Store.errors σ) (Store.inputs σ) (Store.emitted σ)
           (Store.trace σ ++ [c]).

(** The store after the outside calls [calls], in this order. *)
Definition traced `{Host} (calls : list Callee) (σ : Store.t) : Store.t :=
  Store.mk _ (Store.errors σ) (Store.inputs σ) (Store.emitted σ)
           (Store.trace σ ++ calls).

Definition with_errors `{Host} (errors : list FormError.t) (σ : Store.t)
    : Store.t :=
  Store.mk _ errors (Store.inputs σ) (Store.emitted σ) (Store.trace σ).

Definition with_emitted `{Host} (e : Emitted) (σ : Store.t) : Store.t :=
  Store.mk _ (Store.errors σ) (Store.inputs σ) (Store.emitted σ ++ [e])
           (Store.trace σ).

Definition M `{Host} (A : Type) : Type := Store.t → Completion A * Store.t.

Definition ret `{Host} {A} (a : A) : M A := λ σ, (Normal a, σ).

Definition throw `{Host} {A} (e : Exn) : M A := λ σ, (Throw e, σ).

Definition bind `{Host} {A B} (m : M A) (k : A → M B) : M B :=
  λ σ, match m σ with
       | (Normal a, σ') => k a σ'
       | (Throw e, σ') => (Throw e, σ')
       end.

(** [try { m } catch (error) { handler error }] *)
Definition try_catch `{Host} {A} (m : M A) (handler : Exn → M A) : M A :=
  λ σ, match m σ with
       | (Normal a, σ') => (Normal a, σ')
       | (Throw e, σ') => handler e σ'
       end.

Declare Scope form_scope.
Delimit Scope form_scope with form.
Notation "x <- m ;; k" := (bind m (λ x, k))
  (at level 100, m at next level, right associativity) : form_scope.
Notation "m ;; k" := (bind m (λ _, k))
  (at level 100, right associativity) : form_scope.
Open Scope form_scope.

(** [errors.value] and [errors.value = v] *)
Definition read_errors `{Host} : M (list FormError.t) :=
  λ σ, (Normal (Store.errors σ), σ).

Definition write_errors `{Host} (v : list FormError.t) : M unit :=
  λ σ, (Normal tt, with_errors v σ).

(** [inputs.value] *)
Definition read_inputs `{Host} : M (gmap string string) :=
  λ σ, (Normal (Store.inputs σ), σ).

(** [emit(...)] *)
Definition emit `{Host} (e : Emitted) : M unit :=
  λ σ, (Normal tt, with_emitted e σ).

(** [await f(x)] for a function [f] from outside: the call is recorded and
    its completion becomes the completion of the [await]. *)
Definition await_call `{Host} {A} (c : Callee) (r : Completion A) : M A :=
  λ σ, (r, called c σ).

(** [await schema.method(state, ...)]: a property that is not callable
    raises the engine's [TypeError]. *)
Definition await_method `{Host} {A} (c : Callee) (what : string)
    (method : Field (State → Completion A)) (state : State) : M A :=
  match method with
  | Function f => await_call c (f state)
  | _ => throw (TypeError (what +:+ " is not a function"))
  end.

(** ** The schema adapters *)

Definition isYupSchema `{Host} (schema : Schema.t) : bool :=
  truthy (Schema.validate schema) && truthy (Schema.__isYupSchema__ schema).

(** [error.inner !== undefined] *)
Definition isYupError (error : Exn) : bool :=
  match error with
  | Thrown e => bool_decide (is_Some (JsError.inner e))
  | FormException _ => false
  end.

(** [error.inner] once [isYupError] holds. *)
Definition Exn_inner (error : Exn) : list Yup.Issue :=
  match error with
  | Thrown e => default [] (JsError.inner e)
  | FormException _ => []
  end.

Definition getYupErrors `{Host} (state : State) (schema : Schema.t)
    : M (list FormError.t) :=
  try_catch
    (await_method schema_validate "schema.validate"
       (Schema.validate schema) state ;;
     ret [])
    (λ error,
       if isYupError error then
         ret ((λ issue,
                 FormError.mk (default "" (Yup.path issue)) (Yup.message issue))
              <$> Exn_inner error)
       else throw error).

Definition isZodSchema `{Host} (schema : Schema.t) : bool :=
  defined (Schema.parse schema).

Definition getZodErrors `{Host} (state : State) (schema : Schema.t)
    : M (list FormError.t) :=
  result <- await_method schema_safeParseAsync "schema.safeParseAsync"
              (Schema.safeParseAsync schema) state ;;
  match result with
  | Zod.Failure issues =>
      ret ((λ issue,
              FormError.mk (join "." (Zod.path issue)) (Zod.message issue))
           <$> issues)
  | Zod.Success => ret []
  end.

Definition isJoiSchema `{Host} (schema : Schema.t) : bool :=
  defined (Schema.validateAsync schema) && defined (Schema.id schema).

(** [error.isJoi === true] *)
Definition isJoiError (error : Exn) : bool :=
  match error with
  | Thrown e => JsError.isJoi e
  | FormException _ => false
  end.

(** [error.details] once [isJoiError] holds. *)
Definition Exn_details (error : Exn) : list Joi.Detail :=
  match error with
  | Thrown e => JsError.details e
  | FormException _ => []
  end.

Definition getJoiErrors `{Host} (state : State) (schema : Schema.t)
    : M (list FormError.t) :=
  try_catch
    (await_method schema_validateAsync "schema.validateAsync"
       (Schema.validateAsync schema) state ;;
     ret [])
    (λ error,
       if isJoiError error then
         ret ((λ detail,
                 FormError.mk (join "." (Joi.path detail)) (Joi.message detail))
              <$> Exn_details error)
       else throw error).

Definition isValibotSchema `{Host} (schema : Schema.t) : bool :=
  defined (Schema._parse schema).

(** [x || ''] on an optional string. *)
Definition or_empty (x : option string) : string :=
  match given x with
  | Some s => s
  | None => ""
  end.

Definition getValibotError `{Host} (state : State) (schema : Schema.t)
    : M (list FormError.t) :=
  result <- await_method schema__parse "schema._parse"
              (Schema._parse schema) state ;;
  match Valibot.issues result with
  | Some issues =>
      ret ((λ issue,
              FormError.mk
                (or_empty ((λ path, join "." (Valibot.key <$> path))
                           <$> Valibot.path issue))
                (Valibot.message issue))
           <$> issues)
  | None => ret []
  end.

(** ** The validation pass *)

Definition unsupported : Exn :=
  Error "Form validation failed: Unsupported form schema".

Definition getErrors `{Host} (props : Props.t) : M (list FormError.t) :=
  errs <- await_call props_validate (Props.validate props (Props.state props)) ;;
  match Props.schema props with
  | Some schema =>
      if isZodSchema schema then
        more <- getZodErrors (Props.state props) schema ;; ret (errs ++ more)
      else if isYupSchema schema then
        more <- getYupErrors (Props.state props) schema ;; ret (errs ++ more)
      else if isJoiSchema schema then
        more <- getJoiErrors (Props.state props) schema ;; ret (errs ++ more)
      else if isValibotSchema schema then
        more <- getValibotError (Props.state props) schema ;; ret (errs ++ more)
      else throw unsupported
  | None => ret errs
  end.

(** The second argument of [validate]: [{ silent?: boolean }]. *)
Record ValidateOpts := { silent : option bool }.

(** The default of the parameter: [{ silent: false }]. *)
Definition default_opts : ValidateOpts := {| silent := Some false |}.

(** [!opts.silent] *)
Definition not_silent (opts : ValidateOpts) : bool :=
  negb (default false (silent opts)).

Definition validation_failed `{Host} (errors : list FormError.t) : Exn :=
  FormException ("Form validation failed: " +:+ JSON_stringify errors).

Definition validate `{Host} (props : Props.t)
    (path : option string) (opts : option ValidateOpts) : M State :=
  let opts := default default_opts opts in
  match given path with
  | Some path =>
      current <- read_errors ;;
      let otherErrors := filter (λ error, FormError.path error ≠ path) current in
      all <- getErrors props ;;
      let pathErrors := filter (λ error, FormError.path error = path) all in
      write_errors (otherErrors ++ pathErrors)
  | None =>
      all <- getErrors props ;;
      write_errors all
  end ;;
  current <- read_errors ;;
  if not_silent opts && bool_decide (0 < length current) then
    throw (validation_failed current)
  else ret (Props.state props).

(** [props.validateOn?.includes(type)] *)
Definition includes (validateOn : option (list FormEventType))
    (type : FormEventType) : bool :=
  match validateOn with
  | Some types => bool_decide (type ∈ types)
  | None => false
  end.

(** The listener registered with [bus.on]. *)
Definition on_event `{Host} (props : Props.t) (event : FormEvent.t) : M unit :=
  if bool_decide (FormEvent.type event ≠ Submit)
     && includes (Props.validateOn props) (FormEvent.type event)
  then
    validate props (Some (FormEvent.path event)) (Some {| silent := Some true |}) ;;
    ret tt
  else ret tt.

(** [{ ...err, id: inputs.value[err.path] }] *)
Definition with_id (inputs : gmap string string) (err : FormError.t)
    : FormErrorWithId.t :=
  FormErrorWithId.mk (FormError.path err) (FormError.message err)
                     (get_property inputs (FormError.path err)).

Definition onSubmit `{Host} (props : Props.t) (event : SubmitEvent) : M unit :=
  try_catch
    ((if includes (Props.validateOn props) Submit then
        validate props None None ;; ret tt
      else ret tt) ;;
     emit (EmitSubmit event (Props.state props)))
    (λ error,
       if negb (instanceof_FormException error) then throw error
       else
         current <- read_errors ;;
         inputs <- read_inputs ;;
         emit (EmitError event (with_id inputs <$> current))).

(** ** The exposed methods *)

Definition setErrors `{Host} (errs : list FormError.t) (path : option string)
    : M unit :=
  write_errors errs ;;
  match given path with
  | Some path =>
      current <- read_errors ;;
      write_errors (filter (λ error, FormError.path error ≠ path) current ++ errs)
  | None => write_errors errs
  end.

(** The exposed [getErrors(path?)], a read of the collection (the pass
    above is the component's internal [getErrors()]). *)
Definition exposed_getErrors `{Host} (path : option string)
    : M (list FormError.t) :=
  match given path with
  | Some path =>
      current <- read_errors ;;
      ret (filter (λ err, FormError.path err = path) current)
  | None => read_errors
  end.

Definition clear `{Host} (path : option string) : M unit :=
  match given path with
  | Some path =>
      current <- read_errors ;;
      write_errors (filter (λ err, FormError.path err = path) current)
  | None => write_errors []
  end.

(** ** The specification's vocabulary

    The definitions below are not taken from the component: they spell out
    the words of the specification, to be compared with the code above. *)

(** The four kinds of schema, in the order of detection:
    Kind A (Zod), Kind B (Yup), Kind C (Joi), Kind D (Valibot). *)
Inductive SchemaKind := KindA | KindB | KindC | KindD.

#[global] Instance SchemaKind_eq_dec : EqDecision SchemaKind.
Proof. solve_decision. Defined.

Definition priority : list SchemaKind := [KindA; KindB; KindC; KindD].

(** The shape of each kind: a [parse] field; a [validate] method and a set
    [__isYupSchema__] marker (both read by truthiness); [validateAsync] and
    [id]; a [_parse] method. *)
Definition has_shape `{Host} (schema : Schema.t) (kind : SchemaKind) : Prop :=
  match kind with
  | KindA => Schema.parse schema ≠ Undefined
  | KindB => truthy (Schema.validate schema) = true
             ∧ truthy (Schema.__isYupSchema__ schema) = true
  | KindC => Schema.validateAsync schema ≠ Undefined
             ∧ Schema.id schema ≠ Undefined
  | KindD => Schema._parse schema ≠ Undefined
  end.

(** The test the component makes for each kind. *)
Definition matches `{Host} (schema : Schema.t) (kind : SchemaKind) : bool :=
  match kind with
  | KindA => isZodSchema schema
  | KindB => isYupSchema schema
  | KindC => isJoiSchema schema
  | KindD => isValibotSchema schema
  end.

(** [detect(schema)]: the first kind of [priority] whose test succeeds. *)
Definition detect `{Host} (schema : Schema.t) : option SchemaKind :=
  snd <$> list_find (λ kind, matches schema kind = true) priority.

(** [normalize(schema, state)] for a detected kind. *)
Definition normalize `{Host} (kind : SchemaKind)
    : State → Schema.t → M (list FormError.t) :=
  match kind with
  | KindA => getZodErrors
  | KindB => getYupErrors
  | KindC => getJoiErrors
  | KindD => getValibotError
  end.

(** Where a native issue is, as its library tells it: Zod, Joi and Valibot
    give the path segments; Yup gives one string that it has formatted
    itself, or none. *)
Inductive Location :=
| Segments (keys : list Key)
| Formatted (path : option string).

(** A native issue, whatever the library: its location and its message. *)
Record NativeIssue := { location : Location; text : string }.

(** The segments joined with ['.'], the empty string when there is none. *)
Fixpoint dotted (segments : list Key) : string :=
  match segments with
  | [] => ""
  | [k] => Key_toString k
  | k :: rest => Key_toString k +:+ "." +:+ dotted rest
  end.

(** The path of a location: the segments joined with ['.']; the string
    of Yup as it is, the empty string when Yup gives none. *)
Definition located (l : Location) : string :=
  match l with
  | Segments keys => dotted keys
  | Formatted path => default "" path
  end.

(** The [FieldError] of a native issue. *)
Definition field_error (issue : NativeIssue) : FormError.t :=
  FormError.mk (located (location issue)) (text issue).

(** How Yup writes the place of an issue in the state: a field after a
    dot, an index between brackets ([items[0].name]). *)
Fixpoint yup_path_from (keys : list Key) : string :=
  match keys with
  | [] => ""
  | KString field :: rest => "." +:+ field +:+ yup_path_from rest
  | KNumber index :: rest => "[" +:+ pretty index +:+ "]" +:+ yup_path_from rest
  end.

Definition yup_path (keys : list Key) : string :=
  match keys with
  | KString field :: rest => field +:+ yup_path_from rest
  | _ => yup_path_from keys
  end.

(** How a library reports one issue. *)
Definition zod_issue (i : Zod.Issue) : NativeIssue :=
  {| location := Segments (Zod.path i); text := Zod.message i |}.

Definition yup_issue (i : Yup.Issue) : NativeIssue :=
  {| location := Formatted (Yup.path i); text := Yup.message i |}.

Definition joi_issue (d : Joi.Detail) : NativeIssue :=
  {| location := Segments (Joi.path d); text := Joi.message d |}.

Definition valibot_issue (i : Valibot.Issue) : NativeIssue :=
  {| location := Segments (match Valibot.path i with
                           | Some items => Valibot.key <$> items
                           | None => []
                           end);
     text := Valibot.message i |}.

(** What the native validation of a schema says of a state. *)
Inductive Verdict :=
| Accepts
| Rejects (issues : list NativeIssue)
| Fails (e : Exn).

(** The completion of the native entry point of [kind], without the
    bookkeeping of the store. *)
Definition native `{Host} {A} (method : Field (State → Completion A))
    (what : string) (state : State) : Completion A :=
  match method with
  | Function f => f state
  | _ => Throw (TypeError (what +:+ " is not a function"))
  end.

(** The verdict of each library: Zod answers [success]; Yup and Joi return
    or throw their validation error; Valibot answers [issues] or not. *)
Definition verdict `{Host} (kind : SchemaKind) (schema : Schema.t)
    (state : State) : Verdict :=
  match kind with
  | KindA =>
      match native (Schema.safeParseAsync schema) "schema.safeParseAsync" state with
      | Normal Zod.Success => Accepts
      | Normal (Zod.Failure issues) => Rejects (zod_issue <$> issues)
      | Throw e => Fails e
      end
  | KindB =>
      match native (Schema.validate schema) "schema.validate" state with
      | Normal _ => Accepts
      | Throw e =>
          match e with
          | Thrown {| JsError.inner := Some issues |} => Rejects (yup_issue <$> issues)
          | _ => Fails e
          end
      end
  | KindC =>
      match native (Schema.validateAsync schema) "schema.validateAsync" state with
      | Normal _ => Accepts
      | Throw e =>
          match e with
          | Thrown {| JsError.isJoi := true; JsError.details := details |} =>
              Rejects (joi_issue <$> details)
          | _ => Fails e
          end
      end
  | KindD =>
      match native (Schema._parse schema) "schema._parse" state with
      | Normal {| Valibot.issues := None |} => Accepts
      | Normal {| Valibot.issues := Some issues |} => Rejects (valibot_issue <$> issues)
      | Throw e => Fails e
      end
  end.



(** The collection a pass leaves when the errors it computed are [all]:
    with a path, the entries of the other paths followed by those of
    [all] at the path; without one, [all]. *)
Definition merged (path : option string) (before all : list FormError.t)
    : list FormError.t :=
  match given path with
  | Some p =>
      filter (λ error, FormError.path error ≠ p) before
      ++ filter (λ error, FormError.path error = p) all
  | None => all
  end.

(** The entries of a collection at a path. *)
Definition at_path (p : string) (errors : list FormError.t)
    : list FormError.t :=
  filter (λ error, FormError.path error = p) errors.

(** The entries of a collection at the other paths. *)
Definition off_path (p : string) (errors : list FormError.t)
    : list FormError.t :=
  filter (λ error, FormError.path error ≠ p) errors.

Arguments at_path : simpl never.
Arguments off_path : simpl never.

(** Whether the listener of the bus validates on an event. *)
Definition triggers `{Host} (props : Props.t) (event : FormEvent.t) : Prop :=
  FormEvent.type event ≠ Submit
  ∧ includes (Props.validateOn props) (FormEvent.type event) = true.

(** ** Concrete forms

    A host whose form state maps field names to the text typed in them,
    and one schema of each kind asking for a non-empty [email]. *)

(** A plain rendering of the errors, in place of [JSON.stringify]. *)
Definition render_errors (errors : list FormError.t) : string :=
  String.concat "; "
    ((λ e, FormError.path e +:+ ": " +:+ FormError.message e) <$> errors).

Definition text_host : Host :=
  {| State := gmap string string;
     SubmitEvent := nat;
     JSON_stringify := render_errors |}.

Definition email_missing (state : gmap string string) : bool :=
  bool_decide (default "" (state !! "email") = "").

Definition no_schema : @Schema.t text_host :=
  @Schema.mk text_host Undefined Undefined Undefined Undefined Undefined
             Undefined Undefined.

Definition zod_schema : @Schema.t text_host :=
  @Schema.mk text_host
    (Function tt)
    (Function (λ state,
       Normal (if email_missing state
               then Zod.Failure [Zod.mkIssue [KString "email"] "required"]
               else Zod.Success)))
    Undefined Undefined Undefined Undefined Undefined.

Definition yup_error (issues : list Yup.Issue) : Exn :=
  Thrown (JsError.mk "ValidationError" "1 error occurred" (Some issues) false []).

Definition yup_schema : @Schema.t text_host :=
  @Schema.mk text_host Undefined Undefined
    (Function (λ state,
       if email_missing state
       then Throw (yup_error [Yup.mkIssue (Some "email") "required"])
       else Normal tt))
    (Boolean true) Undefined Undefined Undefined.

Definition joi_error (details : list Joi.Detail) : Exn :=
  Thrown (JsError.mk "ValidationError" "required" None true details).

Definition joi_schema : @Schema.t text_host :=
  @Schema.mk text_host Undefined Undefined Undefined Undefined
    (Function (λ state,
       if email_missing state
       then Throw (joi_error [Joi.mkDetail [KString "email"] "required"])
       else Normal tt))
    (Str "email-form") Undefined.

Definition valibot_schema : @Schema.t text_host :=
  @Schema.mk text_host Undefined Undefined Undefined Undefined Undefined
    Undefined
    (Function (λ state,
       Normal (Valibot.mkResult
                 (if email_missing state
                  then Some [Valibot.mkIssue
                               (Some [Valibot.mkPathItem (KString "email")])
                               "required"]
                  else None)))).

(** A Yup schema that misses the name of the first of [items], and says
    where in its own writing. *)
Definition nested_yup_schema : @Schema.t text_host :=
  @Schema.mk text_host Undefined Undefined
    (Function (λ _,
       Throw (yup_error [Yup.mkIssue (Some "items[0].name") "required"])))
    (Boolean true) Undefined Undefined Undefined.



(** A form with all the defaults, and with a schema. *)
Definition plain_form (state : gmap string string) : @Props.t text_host :=
  @Props.mk text_host None state Props.default_validate
            Props.default_validateOn false.

Definition form_with (schema : @Schema.t text_host)
    (state : gmap string string) : @Props.t text_host :=
  @Props.mk text_host (Some schema) state Props.default_validate
            Props.default_validateOn false.

(** An imperative validator asking for a positive [age]. *)
Definition age_validator (state : gmap string string)
    : Completion (list FormError.t) :=
  Normal (if bool_decide (default "" (state !! "age") = "0")
          then [FormError.mk "age" "must be positive"]
          else []).

Definition age_form (schema : @Schema.t text_host)
    (state : gmap string string) : @Props.t text_host :=
  @Props.mk text_host (Some schema) state age_validator
            Props.default_validateOn false.

(** A store that holds the given errors. *)
Definition holding (errors : list FormError.t) : @Store.t text_host :=
  @Store.mk text_host errors ∅ [] [].

(** A submit event. *)
Definition a_submit : @SubmitEvent text_host := 1%nat.

Definition no_email : @State text_host :=
  ({[ "email" := "" ]} : gmap string string).

Definition with_email : @State text_host :=
  ({[ "email" := "a@b.c" ]} : gmap string string).

Definition age_zero_with_email : @State text_host :=
  ({[ "age" := "0"; "email" := "a@b.c" ]} : gmap string string).

(** A form that validates on submit only. *)
Definition submit_only_form (schema : @Schema.t text_host)
    (state : gmap string string) : @Props.t text_host :=
  @Props.mk text_host (Some schema) state Props.default_validate
            (Some [Submit]) false.

Definition no_email_no_age : @State text_host :=
  ({[ "age" := "0"; "email" := "" ]} : gmap string string).

(** ** The outside calls of a pass *)

Definition is_function {F} (x : Field F) : bool :=
  match x with
  | Function _ => true
  | _ => false
  end.

(** The entry point that the adapter of each kind calls: how the call is
    recorded, its name, and whether the schema holds a function there. *)
Definition callee_of (kind : SchemaKind) : Callee :=
  match kind with
  | KindA => schema_safeParseAsync
  | KindB => schema_validate
  | KindC => schema_validateAsync
  | KindD => schema__parse
  end.

Definition entry_name (kind : SchemaKind) : string :=
  match kind with
  | KindA => "schema.safeParseAsync"
  | KindB => "schema.validate"
  | KindC => "schema.validateAsync"
  | KindD => "schema._parse"
  end.

Definition callable `{Host} (kind : SchemaKind) (schema : Schema.t) : bool :=
  match kind with
  | KindA => is_function (Schema.safeParseAsync schema)
  | KindB => is_function (Schema.validate schema)
  | KindC => is_function (Schema.validateAsync schema)
  | KindD => is_function (Schema._parse schema)
  end.

(** The calls one pass makes, in order. *)
Definition pass_calls `{Host} (props : Props.t) : list Callee :=
  props_validate ::
  match Props.validate props (Props.state props), Props.schema props with
  | Normal _, Some schema =>
      match detect schema with
      | Some kind => if callable kind schema then [callee_of kind] else []
      | None => []
      end
  | _, _ => []
  end.

(** A form that validates on blur only. *)
Definition blur_only_form (schema : @Schema.t text_host)
    (state : gmap string string) : @Props.t text_host :=
  @Props.mk text_host (Some schema) state Props.default_validate
            (Some [Blur]) false.

(** A Zod look-alike: it has [parse] but no [safeParseAsync]. *)
Definition parse_only_schema : @Schema.t text_host :=
  @Schema.mk text_host (Function tt) Undefined Undefined Undefined Undefined
             Undefined Undefined.

(** * The textarea: the value handlers of [Textarea.vue] *)

(** What the textarea takes from outside: [String.prototype.trim], and
    [looseToNumber] of [utils], which gives a number or hands the string
    back. *)
Class TextHost := {
  Num : Type;
  String_trim : string → string;
  looseToNumber : string → string + Num
}.

Module Textarea.
(** [props.modelModifiers]: [{ trim?: boolean, lazy?: boolean, number?: boolean }] *)
Record Modifiers := mk {
  trim : option bool;
  lazy : option bool;
  number : option bool
}.
(** A flag of [defu({}, props.modelModifiers, { trim: false, lazy: false,
    number: false })]: a missing flag is [false]. *)
Definition on (flag : option bool) : bool := default false flag.
(** What a handler does outside itself, in order. *)
Inductive Signal `{TextHost} :=
| AutoResize                                (* [autoResize()] *)
| UpdateModelValue (value : string + Num)   (* [emit('update:modelValue', value)] *)
| FormInput.                                (* [emitFormInput()] *)
Definition updateInput `{TextHost} (m : Modifiers) (value : string)
    : list Signal :=
  let value := if on (trim m) then String_trim value else value in
  let value := if on (number m) then looseToNumber value else inl value in
  [UpdateModelValue value; FormInput].
(** [onInput], given [event.target.value]. *)
Definition onInput `{TextHost} (m : Modifiers) (target_value : string)
    : list Signal :=
  AutoResize :: (if negb (on (lazy m)) then updateInput m target_value else []).
(** [onChange], given [event.target.value]: what it does, and the value it
    leaves in the element. *)
Definition onChange `{TextHost} (m : Modifiers) (target_value : string)
    : list Signal * string :=
  let value := target_value in
  ((if on (lazy m) then updateInput m value else []),
   (if on (trim m) then String_trim value else target_value)).
(** The values sent with ['update:modelValue'], and the number of form
    input events. *)
Definition updates `{TextHost} (signals : list Signal)
    : list (string + Num) :=
  omap (λ s, match s with UpdateModelValue v => Some v | _ => None end) signals.
Definition form_inputs `{TextHost} (signals : list Signal) : nat :=
  length (omap (λ s, match s with FormInput => Some tt | _ => None end)
               signals).
End Textarea.

(** * The radio and its group: [Radio.vue] and the radio group *)

Module Radio.
Inductive Signal (V : Type) :=
| UpdateModelValue (value : V)   (* [emit('update:modelValue', value)] *)
| Change (value : V)             (* [emit('change', value)] *)
| FormChange.                    (* [emitFormChange()] *)
Arguments UpdateModelValue {V} value.
Arguments Change {V} value.
Arguments FormChange {V}.
(** The setter of [pick]; [radioGroup] tells whether
    [inject('radio-group', null)] gave the group's object. *)
Definition pick_set {V} (radioGroup : bool) (value : V) : list (Signal V) :=
  [UpdateModelValue value; Change value]
  ++ (if negb radioGroup then [FormChange] else []).
End Radio.

Module RadioGroup.
Definition onUpdate {V} (value : V) : list (Radio.Signal V) :=
  [Radio.UpdateModelValue value; Radio.Change value; Radio.FormChange].
(** A pick in the radio that the group renders for the option of value
    [option_value]. The group listens to the radio's ['change'] only
    ([@change="onUpdate(option.value)"]); the result is what leaves the
    group. *)
Definition pick {V} (option_value picked : V) : list (Radio.Signal V) :=
  s ← Radio.pick_set true picked;
  match s with
  | Radio.UpdateModelValue _ => []
  | Radio.Change _ => onUpdate option_value
  | Radio.FormChange => [Radio.FormChange]
  end.
End RadioGroup.

(** The number of form change events among signals. *)
Definition form_changes {V} (signals : list (Radio.Signal V)) : nat :=
  length (omap (λ s, match s with
                     | Radio.FormChange => Some tt
                     | _ => None
                     end) signals).

(** * The breadcrumb: the template of the breadcrumb component *)

Module Breadcrumb.
(** A link: [to] and [icon] are read by truthiness. *)
Record Link := mk { to : Field unit; icon : Field unit; label : string }.
(** The class added to [ui.base]: [ui.active], [ui.inactive] or none. *)
Inductive Tone := Active | Inactive | Plain.
(** What the template renders for one link. *)
Record Item := mkItem {
  tone : Tone;                   (* the class of the link *)
  aria_current : option string;  (* [:aria-current] *)
  icon_tone : option Tone;       (* the class of the icon, when there is one *)
  divider : bool                 (* whether the divider slot follows *)
}.
(** [index === links.length - 1] *)
Definition is_last (links : list Link) (index : nat) : bool :=
  bool_decide (Z.of_nat index = Z.of_nat (length links) - 1)%Z.
(** [index === links.length - 1 ? active : !!link.to ? inactive : ''] *)
Definition tone_of (links : list Link) (index : nat) (link : Link) : Tone :=
  if is_last links index then Active
  else if truthy (to link) then Inactive
  else Plain.
Definition item (links : list Link) (index : nat) (link : Link) : Item :=
  {| tone := tone_of links index link;
     aria_current := if is_last links index then Some "page" else None;
     icon_tone := if truthy (icon link)
                  then Some (tone_of links index link) else None;
     divider := bool_decide (Z.of_nat index < Z.of_nat (length links) - 1)%Z |}.
(** [v-for="(link, index) in links"] *)
Definition render (links : list Link) : list Item := imap (item links) links.
End Breadcrumb.

(** The passes are opened by their equations below, not by reduction. *)
Arguments getErrors : simpl never.
Arguments validate : simpl never.

(** * Properties *)

(** ** How the pass dispatches *)

Lemma detect_first `{Host} (schema : Schema.t) :
  detect schema =
    if isZodSchema schema then Some KindA
    else if isYupSchema schema then Some KindB
    else if isJoiSchema schema then Some KindC
    else if isValibotSchema schema then Some KindD
    else None.
Proof.
  unfold detect, priority. cbn [list_find matches].
  destruct (isZodSchema schema), (isYupSchema schema),
    (isJoiSchema schema), (isValibotSchema schema);
    repeat (case_decide; try done).
Qed.

Lemma getErrors_detect `{Host} (props : Props.t) (σ : Store.t) :
  getErrors props σ =
    (errs <- await_call props_validate
               (Props.validate props (Props.state props)) ;;
     match Props.schema props with
     | Some schema =>
         match detect schema with
         | Some kind =>
             more <- normalize kind (Props.state props) schema ;;
             ret (errs ++ more)
         | None => throw unsupported
         end
     | None => ret errs
     end) σ.
Proof.
  unfold getErrors, bind. destruct (await_call _ _ σ) as [[errs|e] σ1]; [|done].
  destruct (Props.schema props) as [schema|]; [|done].
  rewrite detect_first.
  destruct (isZodSchema schema); [done|].
  destruct (isYupSchema schema); [done|].
  destruct (isJoiSchema schema); [done|].
  by destruct (isValibotSchema schema).
Qed.

(** ** The adapters against the native verdict *)

Lemma join_dotted (keys : list Key) : join "." keys = dotted keys.
Proof.
  unfold join. induction keys as [|k [|k' rest] IH]; [done..|].
  change (dotted (k :: k' :: rest))
    with (Key_toString k +:+ "." +:+ dotted (k' :: rest)).
  by rewrite <- IH.
Qed.

Lemma or_empty_Some (s : string) : or_empty (Some s) = s.
Proof. unfold or_empty, given. by case_decide. Qed.

Lemma await_method_native `{Host} {A} (c : Callee) (what : string)
    (method : Field (State → Completion A)) (state : State) (σ : Store.t) :
  (await_method c what method state σ).1 = native method what state.
Proof. by destruct method. Qed.

(** The only trace an adapter leaves is the call of its entry point. *)
Lemma await_method_store `{Host} {A} (c : Callee) (what : string)
    (method : Field (State → Completion A)) (state : State) (σ : Store.t) :
  (await_method c what method state σ).2
  = if method is Function _ then called c σ else σ.
Proof. by destruct method. Qed.

Lemma normalize_verdict `{Host} (kind : SchemaKind) (state : State)
    (schema : Schema.t) (σ : Store.t) :
  (normalize kind state schema σ).1 =
    match verdict kind schema state with
    | Accepts => Normal []
    | Rejects issues => Normal (field_error <$> issues)
    | Fails e => Throw e
    end.
Proof.
  destruct kind; cbn [normalize verdict].
  - unfold getZodErrors, bind.
    pose proof (await_method_native schema_safeParseAsync
      "schema.safeParseAsync" (Schema.safeParseAsync schema) state σ) as Hn.
    destruct (await_method _ _ _ _ σ) as [r σ1]; cbn in Hn; rewrite <- Hn.
    destruct r as [[|issues]|e]; [done| |done]. cbn.
    f_equal. rewrite <- list_fmap_compose. apply list_fmap_ext.
    intros _ i _. unfold field_error; cbn. by rewrite join_dotted.
  - unfold getYupErrors, try_catch, bind.
    pose proof (await_method_native schema_validate
      "schema.validate" (Schema.validate schema) state σ) as Hn.
    destruct (await_method _ _ _ _ σ) as [r σ1]; cbn in Hn; rewrite <- Hn.
    destruct r as [[]|[msg|[name msg [inner|] isJoi details]]]; try done. cbn.
    f_equal. rewrite <- list_fmap_compose. apply list_fmap_ext.
    intros _ i _. unfold field_error; cbn. by destruct (Yup.path i).
  - unfold getJoiErrors, try_catch, bind.
    pose proof (await_method_native schema_validateAsync
      "schema.validateAsync" (Schema.validateAsync schema) state σ) as Hn.
    destruct (await_method _ _ _ _ σ) as [r σ1]; cbn in Hn; rewrite <- Hn.
    destruct r as [[]|[msg|[name msg inner [|] details]]]; try done. cbn.
    f_equal. rewrite <- list_fmap_compose. apply list_fmap_ext.
    intros _ d _. unfold field_error; cbn. by rewrite join_dotted.
  - unfold getValibotError, bind.
    pose proof (await_method_native schema__parse
      "schema._parse" (Schema._parse schema) state σ) as Hn.
    destruct (await_method _ _ _ _ σ) as [r σ1]; cbn in Hn; rewrite <- Hn.
    destruct r as [[[issues|]]|e]; [|done..]. cbn.
    f_equal. rewrite <- list_fmap_compose. apply list_fmap_ext.
    intros _ i _. unfold field_error; cbn.
    destruct (Valibot.path i) as [items|]; cbn; [|done].
    by rewrite or_empty_Some, join_dotted.
Qed.

(** ** The pass as a whole *)

Lemma called_traced `{Host} (c : Callee) (σ : Store.t) :
  called c σ = traced [c] σ.
Proof. done. Qed.

Lemma traced_traced `{Host} (xs ys : list Callee) (σ : Store.t) :
  traced ys (traced xs σ) = traced (xs ++ ys) σ.
Proof. unfold traced; cbn. by rewrite app_assoc. Qed.

Lemma traced_nil `{Host} (σ : Store.t) : traced [] σ = σ.
Proof. destruct σ. unfold traced; cbn. by rewrite app_nil_r. Qed.

Lemma with_errors_traced `{Host} (v : list FormError.t) (calls : list Callee)
    (σ : Store.t) :
  with_errors v (traced calls σ) = traced calls (with_errors v σ).
Proof. done. Qed.

(** An adapter touches nothing but the trace. *)
Lemma normalize_store `{Host} (kind : SchemaKind) (state : State)
    (schema : Schema.t) (σ : Store.t) :
  ∃ calls, (normalize kind state schema σ).2 = traced calls σ.
Proof.
  assert (∀ c, ∃ calls, called c σ = traced calls σ) as Hc
    by (intros c; by exists [c]).
  assert (∃ calls, σ = traced calls σ) as Hn
    by (exists []; by rewrite traced_nil).
  destruct kind; cbn [normalize];
    unfold getZodErrors, getYupErrors, getJoiErrors, getValibotError,
      try_catch, bind, await_method, await_call, ret, throw;
    repeat case_match; simplify_eq/=; done.
Qed.

Lemma getErrors_run `{Host} (props : Props.t) (σ : Store.t) :
  ∃ calls,
    (getErrors props σ).2 = traced (props_validate :: calls) σ
    ∧ (getErrors props σ).1 =
        match Props.validate props (Props.state props) with
        | Throw e => Throw e
        | Normal errs =>
            match Props.schema props with
            | None => Normal errs
            | Some schema =>
                match detect schema with
                | None => Throw unsupported
                | Some kind =>
                    match verdict kind schema (Props.state props) with
                    | Accepts => Normal (errs ++ [])
                    | Rejects issues => Normal (errs ++ (field_error <$> issues))
                    | Fails e => Throw e
                    end
                end
            end
        end.
Proof.
  rewrite getErrors_detect. unfold bind, await_call.
  destruct (Props.validate props (Props.state props)) as [errs|e];
    [|by exists []].
  destruct (Props.schema props) as [schema|]; [|by exists []].
  destruct (detect schema) as [kind|]; [|by exists []].
  destruct (normalize_store kind (Props.state props) schema
              (called props_validate σ)) as [calls Hs].
  pose proof (normalize_verdict kind (Props.state props) schema
                (called props_validate σ)) as Hv.
  exists calls.
  destruct (normalize kind _ schema _) as [r σ1]; cbn in Hs, Hv. subst σ1 r.
  rewrite called_traced, traced_traced.
  by destruct (verdict kind schema (Props.state props)).
Qed.

(** [validate] in one step from the outcome of the pass. *)
Lemma validate_run `{Host} (props : Props.t) (path : option string)
    (opts : option ValidateOpts) (σ : Store.t) :
  validate props path opts σ =
    match getErrors props σ with
    | (Normal all, σ1) =>
        let new := merged path (Store.errors σ) all in
        (if not_silent (default default_opts opts)
            && bool_decide (0 < length new)
         then Throw (validation_failed new)
         else Normal (Props.state props),
         with_errors new σ1)
    | (Throw e, σ1) => (Throw e, σ1)
    end.
Proof.
  unfold validate, merged, bind, read_errors, write_errors.
  destruct (given path) as [p|];
    destruct (getErrors props σ) as [[all|e] σ1]; cbn; try done;
    by case_match.
Qed.

Lemma validate_propagates `{Host} (props : Props.t) (path : option string)
    (opts : option ValidateOpts) (σ σ1 : Store.t) (e : Exn) :
  getErrors props σ = (Throw e, σ1) →
  validate props path opts σ = (Throw e, σ1).
Proof. intros Hg. by rewrite validate_run, Hg. Qed.

(** The pass never writes the collection itself. *)
Lemma getErrors_errors `{Host} (props : Props.t) (σ : Store.t) :
  Store.errors (getErrors props σ).2 = Store.errors σ.
Proof. destruct (getErrors_run props σ) as (calls & -> & _). done. Qed.

Lemma getErrors_inputs `{Host} (props : Props.t) (σ : Store.t) :
  Store.inputs (getErrors props σ).2 = Store.inputs σ.
Proof. destruct (getErrors_run props σ) as (calls & -> & _). done. Qed.

Lemma getErrors_emitted `{Host} (props : Props.t) (σ : Store.t) :
  Store.emitted (getErrors props σ).2 = Store.emitted σ.
Proof. destruct (getErrors_run props σ) as (calls & -> & _). done. Qed.

(** ** Entries at a path and at the other paths *)

Lemma at_path_app (p : string) (xs ys : list FormError.t) :
  at_path p (xs ++ ys) = at_path p xs ++ at_path p ys.
Proof. apply filter_app. Qed.

Lemma off_path_app (p : string) (xs ys : list FormError.t) :
  off_path p (xs ++ ys) = off_path p xs ++ off_path p ys.
Proof. apply filter_app. Qed.

Lemma at_path_off_path (q p : string) (errors : list FormError.t) :
  q ≠ p → at_path q (off_path p errors) = at_path q errors.
Proof.
  intros Hqp. unfold at_path, off_path.
  induction errors as [|x errors IH]; [done|].
  rewrite !filter_cons. repeat case_decide; rewrite ?filter_cons;
    repeat case_decide; congruence.
Qed.

Lemma at_path_at_path (q p : string) (errors : list FormError.t) :
  q ≠ p → at_path q (at_path p errors) = [].
Proof.
  intros Hqp. unfold at_path.
  induction errors as [|x errors IH]; [done|].
  rewrite filter_cons. case_decide; [|done].
  rewrite filter_cons. case_decide; congruence.
Qed.

Lemma off_path_off_path (p : string) (errors : list FormError.t) :
  off_path p (off_path p errors) = off_path p errors.
Proof.
  unfold off_path. induction errors as [|x errors IH]; [done|].
  rewrite filter_cons. case_decide; [|done].
  rewrite filter_cons. case_decide; congruence.
Qed.

Lemma off_path_at_path (p : string) (errors : list FormError.t) :
  off_path p (at_path p errors) = [].
Proof.
  unfold off_path, at_path. induction errors as [|x errors IH]; [done|].
  rewrite filter_cons. case_decide; [|done].
  rewrite filter_cons. case_decide; congruence.
Qed.

Lemma at_path_idem (p : string) (errors : list FormError.t) :
  at_path p (at_path p errors) = at_path p errors.
Proof.
  unfold at_path. induction errors as [|x errors IH]; [done|].
  rewrite filter_cons. case_decide; [|done].
  rewrite filter_cons. case_decide; congruence.
Qed.

Lemma at_path_off_same (p : string) (errors : list FormError.t) :
  at_path p (off_path p errors) = [].
Proof.
  unfold at_path, off_path. induction errors as [|x errors IH]; [done|].
  rewrite filter_cons. case_decide; [|done].
  rewrite filter_cons. case_decide; congruence.
Qed.

Lemma given_Some (p : string) : p ≠ "" → given (Some p) = Some p.
Proof. intros Hp. unfold given. by case_decide. Qed.

(** ** The exposed methods *)

Lemma clear_run `{Host} (path : option string) (σ : Store.t) :
  clear path σ =
    (Normal tt,
     with_errors (match given path with
                  | Some p => at_path p (Store.errors σ)
                  | None => []
                  end) σ).
Proof. unfold clear. by destruct (given path). Qed.

Lemma setErrors_run `{Host} (errs : list FormError.t) (path : option string)
    (σ : Store.t) :
  setErrors errs path σ =
    (Normal tt,
     with_errors (match given path with
                  | Some p => off_path p errs ++ errs
                  | None => errs
                  end) σ).
Proof. unfold setErrors. by destruct (given path). Qed.

(** C1. The claim is that [clear()] empties the collection and that
    [clear(p)] removes exactly the entries at path [p]. The first half holds;
    for the second the component does the opposite, as this run shows: with
    an error at [email] and one at [age] in the collection, [clear("email")]
    leaves the error at [email] and removes the one at [age]. *)
Theorem clear_path_keeps_that_path :
  let before := [FormError.mk "email" "required";
                 FormError.mk "age" "must be positive"] in
  clear None (holding before) = (Normal tt, holding [])
  ∧ clear (Some "email") (holding before)
    = (Normal tt, holding [FormError.mk "email" "required"])
  ∧ off_path "email" before = [FormError.mk "age" "must be positive"].
Proof. repeat split; reflexivity. Qed.

(** C2. The claim is that [setErrors(E, p)] replaces the entries at path [p]
    only and that [setErrors(E)] replaces the whole collection. The second
    half holds; for the first the component overwrites the collection with
    [E] before it filters, so the entries of the other paths are lost: with
    an error at [age] and one at [email] in the collection,
    [setErrors([taken], "email")] leaves [taken] alone. *)
Theorem setErrors_path_drops_other_paths :
  let before := [FormError.mk "age" "must be positive";
                 FormError.mk "email" "required"] in
  let taken := FormError.mk "email" "already taken" in
  setErrors [taken] None (holding before) = (Normal tt, holding [taken])
  ∧ setErrors [taken] (Some "email") (holding before)
    = (Normal tt, holding [taken])
  ∧ at_path "age" before = [FormError.mk "age" "must be positive"].
Proof. repeat split; reflexivity. Qed.

(** ** Validation of the whole form and of one field *)

(** C5. [validate()] with no path (none given, or the empty string) and not
    silent: when the pass returns the errors [all], the collection becomes
    [all] whatever it held, the call raises the validation failure exactly
    when [all] is not empty, and resolves with the state of the form exactly
    when it is. *)
Theorem validate_all `{Host} (props : Props.t) (path : option string)
    (opts : option ValidateOpts) (σ σ1 : Store.t) (all : list FormError.t) :
  given path = None →
  not_silent (default default_opts opts) = true →
  getErrors props σ = (Normal all, σ1) →
  Store.errors (validate props path opts σ).2 = all
  ∧ ((validate props path opts σ).1 = Throw (validation_failed all)
     ↔ all ≠ [])
  ∧ ((validate props path opts σ).1 = Normal (Props.state props)
     ↔ all = []).
Proof.
  intros Hpath Hloud Hpass.
  rewrite validate_run, Hpass. unfold merged. rewrite Hpath, Hloud. cbn.
  destruct all as [|error all]; cbn.
  - repeat split; try done.
  - rewrite bool_decide_eq_true_2 by lia. repeat split; try done.
Qed.

Lemma validate_all_witness :
  let props := form_with zod_schema no_email in
  let σ := holding [FormError.mk "age" "must be positive"] in
  let all := [FormError.mk "email" "required"] in
  Store.errors (validate props None None σ).2 = all
  ∧ ((validate props None None σ).1
     = Throw (@validation_failed text_host all) ↔ all ≠ [])
  ∧ ((validate props None None σ).1 = Normal (Props.state props)
     ↔ all = []).
Proof.
  apply (validate_all (form_with zod_schema no_email) None None
           (holding [FormError.mk "age" "must be positive"])
           (traced [props_validate; schema_safeParseAsync]
              (holding [FormError.mk "age" "must be positive"])));
    reflexivity.
Defined.

(** C6, as amended: for every path [p] other than the empty string,
    [validate(p)] leaves the entries of every other path as they were, in
    their order, whether the pass returns or throws; when it returns [all]
    the entries at [p] become those of [all] at [p]. ([validate("")] is
    [validate()]: the empty string is no path.) *)
Theorem validate_path_frame `{Host} (props : Props.t) (p : string)
    (opts : option ValidateOpts) (σ : Store.t) :
  p ≠ "" →
  off_path p (Store.errors (validate props (Some p) opts σ).2)
  = off_path p (Store.errors σ)
  ∧ (∀ q, q ≠ p →
       at_path q (Store.errors (validate props (Some p) opts σ).2)
       = at_path q (Store.errors σ))
  ∧ (∀ all σ1, getErrors props σ = (Normal all, σ1) →
       at_path p (Store.errors (validate props (Some p) opts σ).2)
       = at_path p all).
Proof.
  intros Hp. rewrite validate_run. unfold merged. rewrite (given_Some p Hp).
  pose proof (getErrors_errors props σ) as He.
  destruct (getErrors props σ) as [[all|e] σ1]; cbn in *.
  - fold (off_path p (Store.errors σ)). fold (at_path p all).
    split; [|split].
    + by rewrite off_path_app, off_path_off_path, off_path_at_path, app_nil_r.
    + intros q Hq.
      by rewrite at_path_app, at_path_off_path, at_path_at_path, app_nil_r.
    + intros all' σ1' [= <- <-].
      by rewrite at_path_app, at_path_idem, (at_path_off_same p).
  - rewrite He. split; [done|]. split; [done|]. intros ?? [=].
Qed.

Lemma validate_path_frame_witness :
  let props := age_form zod_schema no_email in
  let σ := holding [FormError.mk "age" "must be positive";
                    FormError.mk "email" "not an address"] in
  off_path "email" (Store.errors (validate props (Some "email") None σ).2)
  = [FormError.mk "age" "must be positive"]
  ∧ at_path "age" (Store.errors (validate props (Some "email") None σ).2)
    = [FormError.mk "age" "must be positive"].
Proof.
  pose proof (validate_path_frame (age_form zod_schema no_email) "email" None
                (holding [FormError.mk "age" "must be positive";
                          FormError.mk "email" "not an address"])
                ltac:(discriminate)) as (Hoff & Hat & _).
  split; [exact Hoff | exact (Hat "age" ltac:(discriminate))].
Defined.

(** C6 as stated fails at the empty path: [validate("")] recomputes the
    whole collection, so the entry at [age] is gone although ["age"] is
    another path. *)
Lemma validate_empty_path_replaces_all :
  let props := plain_form no_email in
  let σ := holding [FormError.mk "age" "must be positive"] in
  let silently := Some {| silent := Some true |} in
  at_path "age" (Store.errors σ) = [FormError.mk "age" "must be positive"]
  ∧ at_path "age" (Store.errors (validate props (Some "") silently σ).2) = []
  ∧ "age" ≠ "".
Proof. repeat split; [reflexivity.. | discriminate]. Qed.

(** ** The listener of the event bus *)

(** Every run of [validate] calls the imperative validator, so it leaves a
    longer trace. *)
Lemma validate_trace `{Host} (props : Props.t) (path : option string)
    (opts : option ValidateOpts) (σ : Store.t) :
  ∃ calls,
    Store.trace (validate props path opts σ).2
    = Store.trace σ ++ props_validate :: calls.
Proof.
  rewrite validate_run.
  destruct (getErrors_run props σ) as (calls & Hs & _). exists calls.
  destruct (getErrors props σ) as [[all|e] σ1]; cbn in *; by subst σ1.
Qed.

Lemma triggers_dec `{Host} (props : Props.t) (event : FormEvent.t) :
  bool_decide (FormEvent.type event ≠ Submit)
  && includes (Props.validateOn props) (FormEvent.type event) = true
  ↔ triggers props event.
Proof.
  unfold triggers. rewrite andb_true_iff, bool_decide_eq_true. done.
Qed.

(** C8, as amended: the listener runs [validate(event.path, { silent: true })]
    exactly when the type of the event is not [submit] and belongs to
    [validateOn]; the validation is silent (errors found raise nothing); on
    any other event, a [submit] event among them, the store is left as it
    was: no call is made and the collection does not change. *)
Theorem on_event_triggers `{Host} (props : Props.t) (event : FormEvent.t)
    (σ : Store.t) :
  let silently := Some {| silent := Some true |} in
  (triggers props event →
     (on_event props event σ).2
     = (validate props (Some (FormEvent.path event)) silently σ).2
     ∧ ∀ all σ1, getErrors props σ = (Normal all, σ1) →
         (on_event props event σ).1 = Normal tt)
  ∧ (¬ triggers props event → on_event props event σ = (Normal tt, σ))
  ∧ (triggers props event
     ↔ Store.trace (on_event props event σ).2 ≠ Store.trace σ).
Proof.
  cbv zeta. pose proof (triggers_dec props event) as Hdec.
  unfold on_event. set (silently := Some {| silent := Some true |}).
  destruct (bool_decide _ && includes _ _) eqn:Hb.
  - assert (triggers props event) as Ht by (by apply Hdec).
    unfold bind.
    destruct (validate_trace props (Some (FormEvent.path event)) silently σ)
      as [calls Htr].
    pose proof (validate_run props (Some (FormEvent.path event)) silently σ)
      as Hrun.
    assert (∀ r σ2, Store.trace σ2 = Store.trace σ ++ props_validate :: calls
                    → Store.trace ((r, σ2) : Completion unit * Store.t).2
                      ≠ Store.trace σ) as Hlonger.
    { intros r σ2 Hσ2 Heq. cbn in Heq. rewrite Hσ2 in Heq.
      apply (f_equal length) in Heq. rewrite length_app in Heq.
      cbn in Heq. lia. }
    destruct (validate props _ silently σ) as [[state|e] σ2]; cbn in Htr.
    + split; [done|]. split; [done|]. split; [|done]. intros _.
      by apply Hlonger.
    + split; [split; [done|]|].
      * intros all σ1 Hg. rewrite Hg in Hrun. done.
      * split; [done|]. split; [|done]. intros _. by apply Hlonger.
  - assert (¬ triggers props event) as Hn
      by (intros Ht; apply Hdec in Ht; congruence).
    split; [done|]. split; [done|]. split; [done|]. cbn. done.
Qed.

Lemma on_event_triggers_witness :
  let props := form_with zod_schema no_email in
  (on_event props (FormEvent.mk Input "email") (holding [])).2
  = traced [props_validate; schema_safeParseAsync]
      (holding [FormError.mk "email" "required"])
  ∧ on_event props (FormEvent.mk Submit "email") (holding [])
    = (Normal tt, holding []).
Proof.
  pose proof (on_event_triggers (form_with zod_schema no_email)
                (FormEvent.mk Input "email") (holding [])) as (Hyes & _ & _).
  pose proof (on_event_triggers (form_with zod_schema no_email)
                (FormEvent.mk Submit "email") (holding [])) as (_ & Hno & _).
  split.
  - refine (proj1 (Hyes _)). split; [discriminate | reflexivity].
  - apply Hno. intros [Hsubmit _]. by apply Hsubmit.
Defined.

(** C8 as stated fails on a [submit] event: [submit] belongs to the default
    [validateOn], yet the listener makes no call and leaves the empty
    collection, where the silent validation of the event's path finds an
    error. *)
Lemma submit_event_is_not_validated :
  let props := form_with zod_schema no_email in
  let event := FormEvent.mk Submit "email" in
  let silently := Some {| silent := Some true |} in
  includes (Props.validateOn props) (FormEvent.type event) = true
  ∧ on_event props event (holding []) = (Normal tt, holding [])
  ∧ Store.errors (validate props (Some (FormEvent.path event)) silently
                    (holding [])).2
    = [FormError.mk "email" "required"].
Proof. repeat split; reflexivity. Qed.

(** ** Submission *)

(** [onSubmit] in one step from the outcome of the pass. *)
Lemma onSubmit_run `{Host} (props : Props.t) (event : SubmitEvent)
    (σ : Store.t) :
  onSubmit props event σ =
    if includes (Props.validateOn props) Submit then
      match getErrors props σ with
      | (Normal [], σ1) =>
          (Normal tt,
           with_emitted (EmitSubmit event (Props.state props))
             (with_errors [] σ1))
      | (Normal all, σ1) =>
          (Normal tt,
           with_emitted (EmitError event (with_id (Store.inputs σ1) <$> all))
             (with_errors all σ1))
      | (Throw e, σ1) =>
          if instanceof_FormException e then
            (Normal tt,
             with_emitted
               (EmitError event
                  (with_id (Store.inputs σ1) <$> Store.errors σ1)) σ1)
          else (Throw e, σ1)
      end
    else (Normal tt, with_emitted (EmitSubmit event (Props.state props)) σ).
Proof.
  unfold onSubmit, try_catch, bind.
  destruct (includes (Props.validateOn props) Submit); [|done].
  rewrite validate_run. unfold merged; cbn [given].
  destruct (getErrors props σ) as [[[|error all]|e] σ1]; cbn; [done..|].
  by destruct e.
Qed.

Lemma get_property_own (inputs : gmap string string) (key id : string) :
  inputs !! key = Some id → get_property inputs key = Own id.
Proof. intros Hown. unfold get_property. by rewrite Hown. Qed.

(** C7. With [submit] in [validateOn]: when the pass finds errors,
    [onSubmit] completes normally, the collection holds them, and the one
    event emitted is ['error'], carrying each error with [inputs[path]] as
    its id, which is the identifier of the input registered at the path of
    the error whenever there is one; no ['submit'] event is emitted. An
    exception of the pass that is not a [FormException] comes out of
    [onSubmit] unchanged and nothing is emitted. Whatever the props, no
    [FormException] comes out of [onSubmit]. *)
Theorem onSubmit_validation_failure `{Host} (props : Props.t)
    (event : SubmitEvent) (σ : Store.t) :
  includes (Props.validateOn props) Submit = true →
  (∀ all σ1, getErrors props σ = (Normal all, σ1) → all ≠ [] →
     (onSubmit props event σ).1 = Normal tt
     ∧ Store.errors (onSubmit props event σ).2 = all
     ∧ (∃ enriched,
          Store.emitted (onSubmit props event σ).2
          = Store.emitted σ ++ [EmitError event enriched]
          ∧ length enriched = length all
          ∧ ∀ i err, all !! i = Some err →
              ∃ entry,
                enriched !! i = Some entry
                ∧ FormErrorWithId.path entry = FormError.path err
                ∧ FormErrorWithId.message entry = FormError.message err
                ∧ FormErrorWithId.id entry
                  = get_property (Store.inputs σ) (FormError.path err)
                ∧ ∀ id, Store.inputs σ !! FormError.path err = Some id →
                    FormErrorWithId.id entry = Own id))
  ∧ (∀ e σ1, getErrors props σ = (Throw e, σ1) →
       instanceof_FormException e = false →
       onSubmit props event σ = (Throw e, σ1)
       ∧ Store.emitted σ1 = Store.emitted σ)
  ∧ (∀ message, (onSubmit props event σ).1 ≠ Throw (FormException message)).
Proof.
  intros Hon. rewrite onSubmit_run, Hon.
  pose proof (getErrors_inputs props σ) as Hi.
  pose proof (getErrors_emitted props σ) as Hm.
  destruct (getErrors props σ) as [[all|e] σ1]; cbn in Hi, Hm.
  - split; [|split].
    + intros all' σ1' [= <- <-] Hne.
      destruct all as [|error all]; [done|]. cbn [fst snd].
      split; [done|]. split; [done|].
      exists (with_id (Store.inputs σ) <$> error :: all).
      split; [cbn; by rewrite Hi, Hm|]. split; [by rewrite length_fmap|].
      intros i err Herr. exists (with_id (Store.inputs σ) err).
      rewrite list_lookup_fmap, Herr. repeat split; try done.
      intros id Hid. cbn. by apply get_property_own.
    + intros ?? [=].
    + intros message. by destruct all.
  - split; [|split].
    + intros ?? [=].
    + intros e' σ1' [= <- <-] He. by rewrite He.
    + intros message. by destruct e.
Qed.

Lemma onSubmit_validation_failure_witness :
  let props := form_with zod_schema no_email in
  let σ := @Store.mk text_host [] {[ "email" := "input-7" ]} [] [] in
  (onSubmit props a_submit σ).1 = Normal tt
  ∧ Store.errors (onSubmit props a_submit σ).2
    = [FormError.mk "email" "required"]
  ∧ ∃ enriched,
      Store.emitted (onSubmit props a_submit σ).2
      = Store.emitted σ ++ [EmitError a_submit enriched]
      ∧ length enriched = 1
      ∧ ∀ i err, [FormError.mk "email" "required"] !! i = Some err →
          ∃ entry,
            enriched !! i = Some entry
            ∧ FormErrorWithId.path entry = FormError.path err
            ∧ FormErrorWithId.message entry = FormError.message err
            ∧ FormErrorWithId.id entry
              = get_property (Store.inputs σ) (FormError.path err)
            ∧ ∀ id, Store.inputs σ !! FormError.path err = Some id →
                FormErrorWithId.id entry = Own id.
Proof.
  pose proof (onSubmit_validation_failure (form_with zod_schema no_email)
                a_submit
                (@Store.mk text_host [] {[ "email" := "input-7" ]} [] [])
                eq_refl) as (Hfail & _ & _).
  refine (Hfail [FormError.mk "email" "required"] _ eq_refl _).
  discriminate.
Defined.

(** ** Detection of the schema *)

Lemma defined_iff {F} (x : Field F) : defined x = true ↔ x ≠ Undefined.
Proof. by destruct x. Qed.

Lemma matches_shape `{Host} (schema : Schema.t) (kind : SchemaKind) :
  matches schema kind = true ↔ has_shape schema kind.
Proof.
  destruct kind; cbn;
    unfold isZodSchema, isYupSchema, isJoiSchema, isValibotSchema;
    rewrite ?andb_true_iff, ?defined_iff; done.
Qed.

Lemma not_matches_shape `{Host} (schema : Schema.t) (kind : SchemaKind) :
  matches schema kind = false ↔ ¬ has_shape schema kind.
Proof. rewrite <- matches_shape. by destruct (matches schema kind). Qed.

Lemma detect_None `{Host} (schema : Schema.t) :
  detect schema = None ↔ ∀ kind, ¬ has_shape schema kind.
Proof.
  rewrite detect_first. split.
  - intros Hd kind. apply not_matches_shape. revert Hd.
    destruct kind; cbn;
      destruct (isZodSchema schema), (isYupSchema schema),
        (isJoiSchema schema), (isValibotSchema schema); done.
  - intros Hno.
    pose proof (proj2 (not_matches_shape schema KindA) (Hno KindA)) as HA.
    pose proof (proj2 (not_matches_shape schema KindB) (Hno KindB)) as HB.
    pose proof (proj2 (not_matches_shape schema KindC) (Hno KindC)) as HC.
    pose proof (proj2 (not_matches_shape schema KindD) (Hno KindD)) as HD.
    cbn [matches] in HA, HB, HC, HD. by rewrite HA, HB, HC, HD.
Qed.

(** C3. Detection goes through the four shapes in the order Zod, Yup, Joi,
    Valibot and stops at the first that the schema has. The pass hands a
    detected schema to the adapter of its kind, after the imperative
    validator. For a schema that has none of the shapes, the pass throws the
    "unsupported schema" error (after the imperative validator, whose own
    exception would come first); [validate] lets it through and the
    collection is left as it was. *)
Theorem schema_detection `{Host} (props : Props.t) (schema : Schema.t)
    (σ : Store.t) :
  Props.schema props = Some schema →
  (detect schema = Some KindA ↔ has_shape schema KindA)
  ∧ (detect schema = Some KindB
     ↔ ¬ has_shape schema KindA ∧ has_shape schema KindB)
  ∧ (detect schema = Some KindC
     ↔ ¬ has_shape schema KindA ∧ ¬ has_shape schema KindB
       ∧ has_shape schema KindC)
  ∧ (detect schema = Some KindD
     ↔ ¬ has_shape schema KindA ∧ ¬ has_shape schema KindB
       ∧ ¬ has_shape schema KindC ∧ has_shape schema KindD)
  ∧ (∀ kind errs,
       detect schema = Some kind →
       Props.validate props (Props.state props) = Normal errs →
       getErrors props σ
       = (more <- normalize kind (Props.state props) schema ;;
          ret (errs ++ more)) (called props_validate σ))
  ∧ ((∀ kind, ¬ has_shape schema kind) →
       (getErrors props σ).1
       = match Props.validate props (Props.state props) with
         | Normal _ => Throw unsupported
         | Throw e => Throw e
         end
       ∧ ∀ errs path opts,
           Props.validate props (Props.state props) = Normal errs →
           validate props path opts σ
           = (Throw (Error "Form validation failed: Unsupported form schema"),
              called props_validate σ)).
Proof.
  intros Hschema.
  assert (∀ kind, has_shape schema kind ↔ matches schema kind = true)
    as Hshape by (intros kind; symmetry; apply matches_shape).
  split; [|split; [|split; [|split; [|split]]]].
  - rewrite !Hshape, detect_first. cbn [matches]. clear.
    destruct (isZodSchema schema), (isYupSchema schema),
      (isJoiSchema schema), (isValibotSchema schema); intuition congruence.
  - rewrite !Hshape, detect_first. cbn [matches]. clear.
    destruct (isZodSchema schema), (isYupSchema schema),
      (isJoiSchema schema), (isValibotSchema schema); intuition congruence.
  - rewrite !Hshape, detect_first. cbn [matches]. clear.
    destruct (isZodSchema schema), (isYupSchema schema),
      (isJoiSchema schema), (isValibotSchema schema); intuition congruence.
  - rewrite !Hshape, detect_first. cbn [matches]. clear.
    destruct (isZodSchema schema), (isYupSchema schema),
      (isJoiSchema schema), (isValibotSchema schema); intuition congruence.
  - intros kind errs Hd Hv. rewrite getErrors_detect.
    unfold bind at 1, await_call. by rewrite Hv, Hschema, Hd.
  - intros Hnone. apply detect_None in Hnone.
    assert (getErrors props σ
            = match Props.validate props (Props.state props) with
              | Normal _ => (Throw unsupported, called props_validate σ)
              | Throw e => (Throw e, called props_validate σ)
              end) as Hg.
    { rewrite getErrors_detect. unfold bind, await_call.
      rewrite Hschema, Hnone. by case_match. }
    split.
    + rewrite Hg. by case_match.
    + intros errs path opts Hv. rewrite Hv in Hg.
      by apply validate_propagates.
Qed.

Lemma schema_detection_witness :
  let props := form_with no_schema no_email in
  let σ := holding [FormError.mk "age" "must be positive"] in
  validate props None None σ
  = (Throw (Error "Form validation failed: Unsupported form schema"),
     called props_validate σ).
Proof.
  pose proof (schema_detection (form_with no_schema no_email) no_schema
                (holding [FormError.mk "age" "must be positive"]) eq_refl)
    as (_ & _ & _ & _ & _ & Hnone).
  refine (proj2 (Hnone _) [] None None eq_refl).
  intros kind. destruct kind; cbn; intuition congruence.
Defined.

(** ** Normalization *)

Lemma verdict_locations `{Host} (kind : SchemaKind) (schema : Schema.t)
    (state : State) (issues : list NativeIssue) (i : nat)
    (issue : NativeIssue) :
  verdict kind schema state = Rejects issues →
  issues !! i = Some issue →
  match location issue with
  | Segments _ => kind ≠ KindB
  | Formatted _ => kind = KindB
  end.
Proof.
  intros Hv Hi.
  assert (∃ (A : Type) (view : A → NativeIssue) (natives : list A),
             issues = view <$> natives
             ∧ ∀ x, match location (view x) with
                    | Segments _ => kind ≠ KindB
                    | Formatted _ => kind = KindB
                    end) as (A & view & natives & -> & Hview).
  { destruct kind; cbn [verdict] in Hv; repeat case_match; simplify_eq;
      eexists _, _, _; (split; [reflexivity|]); intros x; done. }
  rewrite list_lookup_fmap in Hi.
  destruct (natives !! i) as [x|]; simplify_eq/=. apply Hview.
Qed.

(** C4, as amended: for each of the four kinds and every state, when the
    native validation accepts the state the adapter returns the empty list;
    when it rejects it the adapter returns one error per native issue, in
    the order of the issues, with the issue's message. For Zod, Joi and
    Valibot the path is the issue's segments joined with ['.'], the empty
    string when there is no segment; for Yup it is the path string of the
    issue as Yup wrote it, the empty string when the issue has none. *)
Theorem normalize_per_issue `{Host} (kind : SchemaKind) (state : State)
    (schema : Schema.t) (σ : Store.t) :
  (verdict kind schema state = Accepts →
     (normalize kind state schema σ).1 = Normal [])
  ∧ (∀ issues, verdict kind schema state = Rejects issues →
       ∃ errors,
         (normalize kind state schema σ).1 = Normal errors
         ∧ length errors = length issues
         ∧ ∀ i issue, issues !! i = Some issue →
             ∃ error,
               errors !! i = Some error
               ∧ FormError.message error = text issue
               ∧ match location issue with
                 | Segments keys =>
                     kind ≠ KindB ∧ FormError.path error = dotted keys
                 | Formatted path =>
                     kind = KindB ∧ FormError.path error = default "" path
                 end)
  ∧ dotted [] = "".
Proof.
  rewrite normalize_verdict. split; [|split; [|done]].
  - by intros ->.
  - intros issues Hv. rewrite Hv. exists (field_error <$> issues).
    split; [done|]. split; [by rewrite length_fmap|].
    intros i issue Hi. exists (field_error issue).
    rewrite list_lookup_fmap, Hi. split; [done|]. split; [done|].
    pose proof (verdict_locations kind schema state issues i issue Hv Hi).
    unfold field_error. by destruct (location issue).
Qed.

Lemma normalize_per_issue_witness :
  (@normalize text_host KindC with_email joi_schema (holding [])).1 = Normal []
  ∧ ∃ errors,
      (@normalize text_host KindB no_email nested_yup_schema (holding [])).1
      = Normal errors
      ∧ length errors = 1
      ∧ ∀ i issue,
          [yup_issue (Yup.mkIssue (Some "items[0].name") "required")] !! i
          = Some issue →
          ∃ error,
            errors !! i = Some error
            ∧ FormError.message error = text issue
            ∧ match location issue with
              | Segments keys =>
                  KindB ≠ KindB ∧ FormError.path error = dotted keys
              | Formatted path =>
                  KindB = KindB ∧ FormError.path error = default "" path
              end.
Proof.
  split.
  - exact (proj1 (normalize_per_issue KindC with_email joi_schema
                    (holding [])) eq_refl).
  - exact (proj1 (proj2 (normalize_per_issue KindB no_email nested_yup_schema
                           (holding [])))
             [yup_issue (Yup.mkIssue (Some "items[0].name") "required")]
             eq_refl).
Defined.

(** C4 as stated fails for Yup: for the name of the first of [items], whose
    segments joined with ['.'] are [items.0.name], Yup writes
    [items[0].name] and the adapter hands that string on. *)
Lemma yup_path_is_not_dotted :
  let place := [KString "items"; KNumber 0; KString "name"] in
  (@normalize text_host KindB no_email nested_yup_schema (holding [])).1
  = Normal [FormError.mk "items[0].name" "required"]
  ∧ yup_path place = "items[0].name"
  ∧ dotted place = "items.0.name"
  ∧ "items[0].name" ≠ "items.0.name".
Proof. repeat split; [reflexivity.. | discriminate]. Qed.

(** ** Exceptions of the schema libraries *)




(** ** The imperative validator and the schema *)

(** C10. In every pass the imperative validator is the first call made: if
    it throws, nothing else is called; the errors it returns come before
    those of the schema's adapter in the result of the pass, and the filter
    of [validate(p)] is applied to that concatenation. Without a schema the
    result is what the validator returned, and the default validator returns
    the empty list. *)
Theorem imperative_validator_first `{Host} (props : Props.t) (σ : Store.t) :
  (∃ calls,
     Store.trace (getErrors props σ).2
     = Store.trace σ ++ props_validate :: calls)
  ∧ (∀ e, Props.validate props (Props.state props) = Throw e →
       getErrors props σ = (Throw e, called props_validate σ))
  ∧ (∀ errs schema kind more σ2,
       Props.validate props (Props.state props) = Normal errs →
       Props.schema props = Some schema →
       detect schema = Some kind →
       normalize kind (Props.state props) schema (called props_validate σ)
       = (Normal more, σ2) →
       getErrors props σ = (Normal (errs ++ more), σ2)
       ∧ ∀ p opts, p ≠ "" →
           Store.errors (validate props (Some p) opts σ).2
           = off_path p (Store.errors σ) ++ at_path p (errs ++ more))
  ∧ (∀ errs,
       Props.validate props (Props.state props) = Normal errs →
       Props.schema props = None →
       getErrors props σ = (Normal errs, called props_validate σ))
  ∧ (∀ state, Props.default_validate state = Normal []).
Proof.
  split; [|split; [|split; [|split]]].
  - destruct (getErrors_run props σ) as (calls & -> & _). by exists calls.
  - intros e He. rewrite getErrors_detect. unfold bind, await_call.
    by rewrite He.
  - intros errs schema kind more σ2 Hv Hs Hd Hn.
    assert (getErrors props σ = (Normal (errs ++ more), σ2)) as Hg.
    { rewrite getErrors_detect. unfold bind at 1, await_call.
      rewrite Hv, Hs, Hd. unfold bind. by rewrite Hn. }
    split; [done|]. intros p opts Hp.
    rewrite validate_run, Hg. unfold merged. by rewrite (given_Some p Hp).
  - intros errs Hv Hs. rewrite getErrors_detect. unfold bind, await_call.
    by rewrite Hv, Hs.
  - done.
Qed.

Lemma imperative_validator_first_witness :
  let props := age_form zod_schema no_email_no_age in
  getErrors props (holding [])
  = (Normal [FormError.mk "age" "must be positive";
             FormError.mk "email" "required"],
     traced [props_validate; schema_safeParseAsync] (holding []))
  ∧ ∀ p opts, p ≠ "" →
      Store.errors (validate props (Some p) opts (holding [])).2
      = off_path p []
        ++ at_path p ([FormError.mk "age" "must be positive"]
                      ++ [FormError.mk "email" "required"]).
Proof.
  pose proof (imperative_validator_first
                (age_form zod_schema no_email_no_age)
                (holding [])) as (_ & _ & Hboth & _ & _).
  exact (Hboth [FormError.mk "age" "must be positive"] zod_schema KindA
           [FormError.mk "email" "required"]
           (traced [props_validate; schema_safeParseAsync] (holding []))
           eq_refl eq_refl eq_refl eq_refl).
Defined.

(** ** Runs of the concrete forms *)

Example join_nested :
  join "." [KString "items"; KNumber 0; KString "name"] = "items.0.name"
  ∧ join "." [] = "" ∧ join "." [KString "email"] = "email".
Proof. repeat split; reflexivity. Qed.

(** The four schemas report the missing [email] as the same error, and
    nothing once it is filled in. *)
Example four_kinds_same_error :
  Forall (λ '(kind, schema),
            (@normalize text_host kind no_email schema (holding [])).1
            = Normal [FormError.mk "email" "required"]
            ∧ (@normalize text_host kind with_email schema (holding [])).1
              = Normal [])
         [(KindA, zod_schema); (KindB, yup_schema);
          (KindC, joi_schema); (KindD, valibot_schema)].
Proof. repeat constructor. Qed.

Example four_kinds_detected :
  detect zod_schema = Some KindA ∧ detect yup_schema = Some KindB
  ∧ detect joi_schema = Some KindC ∧ detect valibot_schema = Some KindD
  ∧ detect no_schema = None.
Proof. repeat split; reflexivity. Qed.

(** A Valibot issue without a path is at the root. *)
Example valibot_root_issue :
  field_error (valibot_issue (Valibot.mkIssue None "invalid"))
  = FormError.mk "" "invalid".
Proof. reflexivity. Qed.

(** The schema rejects an empty [email]: the validation of the form fails
    with that one error in the collection. *)
Example scenario_schema_rejects :
  validate (form_with yup_schema no_email) None None (holding [])
  = (Throw (@validation_failed text_host [FormError.mk "email" "required"]),
     traced [props_validate; schema_validate]
       (holding [FormError.mk "email" "required"])).
Proof. reflexivity. Qed.

(** The imperative validator finds an error, the schema none. *)
Example scenario_imperative_only :
  Store.errors
    (validate (age_form joi_schema age_zero_with_email) None None (holding [])).2
  = [FormError.mk "age" "must be positive"].
Proof. reflexivity. Qed.

(** Validation on submit only: typing changes nothing; submitting the
    invalid form fills the collection and emits ['error']. *)
Example scenario_submit_only :
  let props := submit_only_form valibot_schema no_email in
  on_event props (FormEvent.mk Input "email") (holding [])
  = (Normal tt, holding [])
  ∧ (onSubmit props a_submit (holding [])).1 = Normal tt
  ∧ Store.errors (onSubmit props a_submit (holding [])).2
    = [FormError.mk "email" "required"]
  ∧ Store.emitted (onSubmit props a_submit (holding [])).2
    = [EmitError a_submit [FormErrorWithId.mk "email" "required" NoProperty]].
Proof. repeat split; reflexivity. Qed.

(** The id of an error: that of the input registered at its path; none
    without one, unless the path names a member that the plain object
    [inputs] inherits. *)
Example ids_of_errors :
  let inputs : gmap string string := {[ "email" := "input-7" ]} in
  with_id inputs (FormError.mk "email" "required")
  = FormErrorWithId.mk "email" "required" (Own "input-7")
  ∧ with_id inputs (FormError.mk "age" "must be positive")
    = FormErrorWithId.mk "age" "must be positive" NoProperty
  ∧ with_id inputs (FormError.mk "constructor" "invalid")
    = FormErrorWithId.mk "constructor" "invalid" (Inherited "constructor").
Proof. repeat split; reflexivity. Qed.

(** A valid form is submitted with its state. *)
Example scenario_submit_valid :
  Store.emitted
    (onSubmit (form_with zod_schema with_email) a_submit (holding [])).2
  = [EmitSubmit a_submit with_email].
Proof. reflexivity. Qed.

(** An object that is no schema of the four kinds. *)
Example scenario_unsupported :
  onSubmit (form_with no_schema no_email) a_submit (holding [])
  = (Throw unsupported, called props_validate (holding [])).
Proof. reflexivity. Qed.

(** * Further properties of the form *)

Lemma with_errors_twice `{Host} (v w : list FormError.t) (σ : Store.t) :
  with_errors v (with_errors w σ) = with_errors v σ.
Proof. done. Qed.

(** X1. After [setErrors(E, path)], the exposed [getErrors(path)] returns
    the entries of [E] at the path (all of [E] when no path is given), and
    reading changes nothing. *)
Theorem setErrors_then_getErrors `{Host} (E : list FormError.t)
    (path : option string) (σ : Store.t) :
  exposed_getErrors path (setErrors E path σ).2
  = (Normal (match given path with
             | Some p => at_path p E
             | None => E
             end),
     (setErrors E path σ).2).
Proof.
  rewrite setErrors_run. unfold exposed_getErrors.
  destruct (given path) as [p|]; [|done].
  unfold bind, read_errors, ret; cbn.
  fold (at_path p (off_path p E ++ E)).
  by rewrite at_path_app, at_path_off_same.
Qed.

(** X2. [clear] only ever removes: the collection it leaves is a sublist of
    the one it found (nothing added, nothing reordered), the rest of the
    store is untouched, and clearing again changes nothing more. *)
Theorem clear_only_removes `{Host} (path : option string) (σ : Store.t) :
  Store.errors (clear path σ).2 `sublist_of` Store.errors σ
  ∧ (clear path σ).2 = with_errors (Store.errors (clear path σ).2) σ
  ∧ clear path (clear path σ).2 = clear path σ.
Proof.
  rewrite !clear_run. cbn. split; [|split; [done|]].
  - destruct (given path) as [p|]; [apply sublist_filter|apply sublist_nil_l].
  - rewrite with_errors_twice. destruct (given path) as [p|]; [|done].
    by rewrite at_path_idem.
Qed.

Lemma normalize_calls `{Host} (kind : SchemaKind) (state : State)
    (schema : Schema.t) (σ : Store.t) :
  (normalize kind state schema σ).2
  = traced (if callable kind schema then [callee_of kind] else []) σ.
Proof.
  pose proof (traced_nil σ) as Hnil.
  destruct kind; cbn [normalize callable callee_of];
    unfold getZodErrors, getYupErrors, getJoiErrors, getValibotError,
      try_catch, bind, await_method, await_call, ret, throw;
    repeat case_match; simplify_eq/=; done.
Qed.

(** X3. The calls of a pass: the imperative validator, once and first;
    then, only if the validator returned and the schema is of a detected
    kind whose entry point is a function, that entry point, once. Nothing
    else is called, so a pass makes one or two calls; [validate] makes the
    same calls. *)
Theorem pass_calls_exact `{Host} (props : Props.t) (path : option string)
    (opts : option ValidateOpts) (σ : Store.t) :
  Store.trace (getErrors props σ).2 = Store.trace σ ++ pass_calls props
  ∧ Store.trace (validate props path opts σ).2
    = Store.trace σ ++ pass_calls props
  ∧ 1 ≤ length (pass_calls props) ≤ 2.
Proof.
  assert (Store.trace (getErrors props σ).2
          = Store.trace σ ++ pass_calls props) as Hpass.
  { rewrite getErrors_detect. unfold pass_calls, bind at 1, await_call.
    destruct (Props.validate props (Props.state props)) as [errs|e]; [|done].
    destruct (Props.schema props) as [schema|]; [|done].
    destruct (detect schema) as [kind|]; [|done].
    unfold bind.
    pose proof (normalize_calls kind (Props.state props) schema
                  (called props_validate σ)) as Hn.
    destruct (normalize kind _ schema _) as [[more|e] σ1]; cbn in Hn;
      subst σ1; cbn; by rewrite <- app_assoc. }
  split; [done|]. split.
  - rewrite validate_run.
    destruct (getErrors props σ) as [[all|e] σ1]; done.
  - unfold pass_calls. repeat case_match; cbn; lia.
Qed.

(** X4. A schema that is detected by its shape but holds no function at the
    entry point of its kind (an object with [parse] and no
    [safeParseAsync], say) is not reported as unsupported: once the
    imperative validator has returned, the pass throws the [TypeError] of
    the failed call, and [onSubmit] lets it through without emitting. *)
Theorem uncallable_entry_point `{Host} (props : Props.t) (schema : Schema.t)
    (kind : SchemaKind) (errs : list FormError.t) (event : SubmitEvent)
    (σ : Store.t) :
  Props.schema props = Some schema →
  detect schema = Some kind →
  callable kind schema = false →
  Props.validate props (Props.state props) = Normal errs →
  getErrors props σ
  = (Throw (TypeError (entry_name kind +:+ " is not a function")),
     called props_validate σ)
  ∧ (includes (Props.validateOn props) Submit = true →
     onSubmit props event σ
     = (Throw (TypeError (entry_name kind +:+ " is not a function")),
        called props_validate σ)).
Proof.
  intros Hschema Hdetect Hcall Hvalidate.
  assert (getErrors props σ
          = (Throw (TypeError (entry_name kind +:+ " is not a function")),
             called props_validate σ)) as Hpass.
  { rewrite getErrors_detect. unfold bind at 1, await_call.
    rewrite Hvalidate, Hschema, Hdetect. unfold bind.
    destruct kind; cbn [normalize callable entry_name] in *;
      unfold getZodErrors, getYupErrors, getJoiErrors, getValibotError,
        try_catch, bind, await_method, await_call, ret, throw;
      repeat case_match; simplify_eq/=; done. }
  split; [done|]. intros Hon. by rewrite onSubmit_run, Hon, Hpass.
Qed.

Lemma uncallable_entry_point_witness :
  getErrors (form_with parse_only_schema no_email) (holding [])
  = (Throw (TypeError "schema.safeParseAsync is not a function"),
     called props_validate (holding []))
  ∧ onSubmit (form_with parse_only_schema no_email) a_submit (holding [])
    = (Throw (TypeError "schema.safeParseAsync is not a function"),
       called props_validate (holding [])).
Proof.
  pose proof (uncallable_entry_point (form_with parse_only_schema no_email)
                parse_only_schema KindA [] a_submit (holding [])
                eq_refl eq_refl eq_refl eq_refl) as [Hpass Hsubmit].
  split; [exact Hpass | exact (Hsubmit eq_refl)].
Defined.

(** X5. [validate(p)] that is not silent looks at the whole collection, not
    at [p] alone: when the pass returns [all], the collection becomes the
    entries of the other paths followed by those of [all] at [p]; the call
    resolves with the state exactly when both parts are empty, and
    otherwise raises the validation failure -- so a stale error at another
    path makes the validation of a sound field fail. *)
Theorem validate_path_raises `{Host} (props : Props.t) (p : string)
    (opts : option ValidateOpts) (σ σ1 : Store.t) (all : list FormError.t) :
  p ≠ "" →
  not_silent (default default_opts opts) = true →
  getErrors props σ = (Normal all, σ1) →
  let new := off_path p (Store.errors σ) ++ at_path p all in
  Store.errors (validate props (Some p) opts σ).2 = new
  ∧ ((validate props (Some p) opts σ).1 = Normal (Props.state props)
     ↔ off_path p (Store.errors σ) = [] ∧ at_path p all = [])
  ∧ (new ≠ [] →
     (validate props (Some p) opts σ).1 = Throw (validation_failed new)).
Proof.
  intros Hp Hloud Hpass new.
  rewrite validate_run, Hpass. unfold merged. rewrite (given_Some p Hp), Hloud.
  fold (off_path p (Store.errors σ)). fold (at_path p all). fold new. cbn.
  split; [done|]. destruct new as [|error rest] eqn:Hnew; cbn.
  - apply app_eq_nil in Hnew. split; [done|]. by intros [].
  - rewrite bool_decide_eq_true_2 by lia. split; [|done].
    split; [done|]. intros [Hoff Hat]. subst new.
    by rewrite Hoff, Hat in Hnew.
Qed.

Lemma validate_path_raises_witness :
  let props := form_with zod_schema with_email in
  let σ := holding [FormError.mk "age" "must be positive"] in
  Store.errors (validate props (Some "email") None σ).2
  = [FormError.mk "age" "must be positive"]
  ∧ (validate props (Some "email") None σ).1
    = Throw (@validation_failed text_host
               [FormError.mk "age" "must be positive"]).
Proof.
  pose proof (validate_path_raises (form_with zod_schema with_email) "email"
                None (holding [FormError.mk "age" "must be positive"])
                (traced [props_validate; schema_safeParseAsync]
                   (holding [FormError.mk "age" "must be positive"]))
                [] ltac:(discriminate) eq_refl eq_refl) as (Hc & _ & Hr).
  split; [exact Hc | exact (Hr ltac:(discriminate))].
Defined.

(** X6. A silent [validate] raises nothing of its own: it resolves with the
    state of the form whatever errors the pass found, and throws only what
    the pass itself throws. *)
Theorem validate_silent `{Host} (props : Props.t) (path : option string)
    (σ : Store.t) :
  (validate props path (Some {| silent := Some true |}) σ).1
  = match (getErrors props σ).1 with
    | Normal _ => Normal (Props.state props)
    | Throw e => Throw e
    end.
Proof.
  rewrite validate_run. by destruct (getErrors props σ) as [[all|e] σ1].
Qed.

(** X7. Without [submit] in [validateOn] (or with no [validateOn] at all),
    [onSubmit] validates nothing: no call is made, the collection stays as
    it was, and the one thing done is to emit ['submit'] with the state. *)
Theorem onSubmit_without_trigger `{Host} (props : Props.t)
    (event : SubmitEvent) (σ : Store.t) :
  includes (Props.validateOn props) Submit = false →
  onSubmit props event σ
  = (Normal tt, with_emitted (EmitSubmit event (Props.state props)) σ).
Proof. intros Hoff. by rewrite onSubmit_run, Hoff. Qed.

Lemma onSubmit_without_trigger_witness :
  let σ := holding [FormError.mk "age" "must be positive"] in
  onSubmit (blur_only_form zod_schema no_email) a_submit σ
  = (Normal tt, with_emitted (EmitSubmit a_submit no_email) σ).
Proof.
  exact (onSubmit_without_trigger (blur_only_form zod_schema no_email)
           a_submit (holding [FormError.mk "age" "must be positive"])
           eq_refl).
Defined.

(** X8. With [submit] in [validateOn] and a pass that finds nothing,
    [onSubmit] empties the collection of whatever it held and emits
    ['submit'] with the state, and nothing else. *)
Theorem onSubmit_valid `{Host} (props : Props.t) (event : SubmitEvent)
    (σ σ1 : Store.t) :
  includes (Props.validateOn props) Submit = true →
  getErrors props σ = (Normal [], σ1) →
  onSubmit props event σ
  = (Normal tt,
     with_emitted (EmitSubmit event (Props.state props)) (with_errors [] σ1))
  ∧ Store.emitted (onSubmit props event σ).2
    = Store.emitted σ ++ [EmitSubmit event (Props.state props)].
Proof.
  intros Hon Hpass. rewrite onSubmit_run, Hon, Hpass. split; [done|].
  cbn. f_equal. pose proof (getErrors_emitted props σ) as Hm.
  by rewrite Hpass in Hm.
Qed.

Lemma onSubmit_valid_witness :
  let σ := holding [FormError.mk "email" "required"] in
  Store.errors (onSubmit (form_with joi_schema with_email) a_submit σ).2 = []
  ∧ Store.emitted (onSubmit (form_with joi_schema with_email) a_submit σ).2
    = [EmitSubmit a_submit with_email].
Proof.
  pose proof (onSubmit_valid (form_with joi_schema with_email) a_submit
                (holding [FormError.mk "email" "required"])
                (traced [props_validate; schema_validateAsync]
                   (holding [FormError.mk "email" "required"]))
                eq_refl eq_refl) as [Hrun Hemit].
  split; [exact (f_equal (λ r, Store.errors r.2) Hrun) | exact Hemit].
Defined.

(** X9. Whatever the props and the store, [onSubmit] either completes and
    has emitted exactly one event, or throws an exception that is not a
    [FormException] and has emitted none; it never writes [inputs]. *)
Theorem onSubmit_one_event `{Host} (props : Props.t) (event : SubmitEvent)
    (σ : Store.t) :
  Store.inputs (onSubmit props event σ).2 = Store.inputs σ
  ∧ match (onSubmit props event σ).1 with
    | Normal _ =>
        ∃ e, Store.emitted (onSubmit props event σ).2 = Store.emitted σ ++ [e]
    | Throw ex =>
        Store.emitted (onSubmit props event σ).2 = Store.emitted σ
        ∧ instanceof_FormException ex = false
    end.
Proof.
  rewrite onSubmit_run.
  pose proof (getErrors_inputs props σ) as Hi.
  pose proof (getErrors_emitted props σ) as Hm.
  destruct (includes (Props.validateOn props) Submit); [|cbn; eauto].
  destruct (getErrors props σ) as [[[|error all]|e] σ1]; cbn in *;
    rewrite ?Hm; eauto.
  destruct (instanceof_FormException e) eqn:He; cbn; rewrite ?Hm; eauto.
Qed.

(** X10. Validating a field again with the same findings leaves the
    collection as it is: the entries at the path are replaced, never
    appended twice. *)
Theorem validate_path_again `{Host} (props : Props.t) (p : string)
    (opts opts' : option ValidateOpts) (σ σ1 σ2 : Store.t)
    (all : list FormError.t) :
  p ≠ "" →
  getErrors props σ = (Normal all, σ1) →
  getErrors props (validate props (Some p) opts σ).2 = (Normal all, σ2) →
  Store.errors
    (validate props (Some p) opts' (validate props (Some p) opts σ).2).2
  = Store.errors (validate props (Some p) opts σ).2.
Proof.
  intros Hp Hfirst Hsecond.
  rewrite (validate_run props (Some p) opts'), Hsecond.
  rewrite (validate_run props (Some p) opts), Hfirst.
  unfold merged. rewrite (given_Some p Hp). cbn.
  fold (off_path p (Store.errors σ)). fold (at_path p all).
  fold (off_path p (off_path p (Store.errors σ) ++ at_path p all)).
  by rewrite off_path_app, off_path_off_path, off_path_at_path, app_nil_r.
Qed.

Lemma validate_path_again_witness :
  let props := form_with yup_schema no_email in
  let σ := holding [FormError.mk "email" "not an address"] in
  Store.errors
    (validate props (Some "email") None
       (validate props (Some "email") None σ).2).2
  = Store.errors (validate props (Some "email") None σ).2.
Proof.
  exact (validate_path_again (form_with yup_schema no_email) "email" None None
           (holding [FormError.mk "email" "not an address"])
           (traced [props_validate; schema_validate]
              (holding [FormError.mk "email" "not an address"]))
           (traced [props_validate; schema_validate; props_validate;
                    schema_validate]
              (holding [FormError.mk "email" "required"]))
           [FormError.mk "email" "required"]
           ltac:(discriminate) eq_refl eq_refl).
Defined.

(** X11. The errors of different fields accumulate when the validations
    follow one another: if [validate(q)] is called once [validate(p)] has
    settled, for two different paths, then the entries at [p] are those the
    first pass found at [p], the entries at [q] those the second found at
    [q], and every other path keeps what it had. (The second call works on
    the store the first one left; two calls in flight at once are not
    covered.) *)
Theorem validate_two_fields `{Host} (props props' : Props.t) (p q : string)
    (opts opts' : option ValidateOpts) (σ σ1 σ2 : Store.t)
    (all all' : list FormError.t) :
  p ≠ "" → q ≠ "" → p ≠ q →
  getErrors props σ = (Normal all, σ1) →
  getErrors props' (validate props (Some p) opts σ).2 = (Normal all', σ2) →
  let after :=
    Store.errors
      (validate props' (Some q) opts' (validate props (Some p) opts σ).2).2 in
  at_path p after = at_path p all
  ∧ at_path q after = at_path q all'
  ∧ ∀ r, r ≠ p → r ≠ q → at_path r after = at_path r (Store.errors σ).
Proof.
  intros Hp Hq Hpq Hfirst Hsecond after. subst after.
  rewrite (validate_run props' (Some q) opts'), Hsecond.
  rewrite (validate_run props (Some p) opts), Hfirst.
  unfold merged. rewrite (given_Some p Hp), (given_Some q Hq). cbn.
  fold (off_path p (Store.errors σ)). fold (at_path p all).
  fold (off_path q (off_path p (Store.errors σ) ++ at_path p all)).
  fold (at_path q all').
  split; [|split].
  - rewrite at_path_app, (at_path_off_path p q), (at_path_at_path p q) by done.
    by rewrite at_path_app, at_path_off_same, at_path_idem, app_nil_r.
  - by rewrite at_path_app, at_path_off_same, at_path_idem.
  - intros r Hrp Hrq.
    rewrite at_path_app, (at_path_off_path r q), (at_path_at_path r q) by done.
    rewrite at_path_app, (at_path_off_path r p), (at_path_at_path r p) by done.
    by rewrite !app_nil_r.
Qed.

Lemma validate_two_fields_witness :
  let props := age_form zod_schema no_email_no_age in
  let after :=
    Store.errors
      (validate props (Some "age") None
         (validate props (Some "email") None (holding [])).2).2 in
  at_path "email" after = [FormError.mk "email" "required"]
  ∧ at_path "age" after = [FormError.mk "age" "must be positive"].
Proof.
  pose proof (validate_two_fields (age_form zod_schema no_email_no_age)
                (age_form zod_schema no_email_no_age) "email" "age" None None
                (holding []) _ _ _ _
                ltac:(discriminate) ltac:(discriminate) ltac:(discriminate)
                eq_refl eq_refl) as (Hemail & Hage & _).
  split; [exact Hemail | exact Hage].
Defined.

(** X12. A triggering event whose path is the empty string revalidates the
    whole form silently: when the pass returns [all], the collection
    becomes [all] and the listener completes. *)
Theorem on_event_empty_path `{Host} (props : Props.t) (event : FormEvent.t)
    (σ σ1 : Store.t) (all : list FormError.t) :
  triggers props event →
  FormEvent.path event = "" →
  getErrors props σ = (Normal all, σ1) →
  on_event props event σ = (Normal tt, with_errors all σ1).
Proof.
  intros Htrig Hpath Hpass. unfold on_event.
  rewrite (proj2 (triggers_dec props event) Htrig). unfold bind.
  by rewrite validate_run, Hpass, Hpath.
Qed.

Lemma on_event_empty_path_witness :
  on_event (form_with valibot_schema no_email) (FormEvent.mk Blur "")
    (holding [FormError.mk "age" "must be positive"])
  = (Normal tt,
     traced [props_validate; schema__parse]
       (holding [FormError.mk "email" "required"])).
Proof.
  refine (on_event_empty_path (form_with valibot_schema no_email)
            (FormEvent.mk Blur "")
            (holding [FormError.mk "age" "must be positive"])
            (traced [props_validate; schema__parse]
               (holding [FormError.mk "age" "must be positive"]))
            [FormError.mk "email" "required"] _ eq_refl eq_refl).
  split; [discriminate | reflexivity].
Defined.

(** * The textarea *)

(** X13. Over an input event followed by a change event the textarea sends
    ['update:modelValue'] exactly once, with one form input event: on the
    input event with the value typed so far when it is not lazy, on the
    change event with the final value when it is. The value sent is trimmed
    first and converted to a number second, as the modifiers ask; the
    change event leaves the trimmed value in the element when [trim] is
    set. *)
Theorem textarea_updates_once `{TextHost} (m : Textarea.Modifiers)
    (typed final : string) :
  let signals := Textarea.onInput m typed ++ (Textarea.onChange m final).1 in
  let sent := if Textarea.on (Textarea.lazy m) then final else typed in
  let trimmed := if Textarea.on (Textarea.trim m)
                 then String_trim sent else sent in
  Textarea.updates signals
  = [if Textarea.on (Textarea.number m)
     then looseToNumber trimmed else inl trimmed]
  ∧ Textarea.form_inputs signals = 1
  ∧ (Textarea.onChange m final).2
    = if Textarea.on (Textarea.trim m) then String_trim final else final.
Proof.
  unfold Textarea.onInput, Textarea.onChange, Textarea.updateInput.
  destruct (Textarea.on (Textarea.lazy m)); cbn; done.
Qed.

(** * The radio and its group *)

(** X14. A pick sends exactly one form change event, whether the radio
    stands alone or in a group: alone the radio sends it; in a group the
    radio leaves it to the group, which answers the radio's ['change'] with
    its own ['update:modelValue'] and ['change'], both carrying the value of
    the option, and the one form change. *)
Theorem radio_pick_one_form_change {V} (option_value picked : V) :
  form_changes (Radio.pick_set false picked) = 1
  ∧ form_changes (Radio.pick_set true picked) = 0
  ∧ form_changes (RadioGroup.pick option_value picked) = 1
  ∧ RadioGroup.pick option_value picked
    = [Radio.UpdateModelValue option_value; Radio.Change option_value;
       Radio.FormChange].
Proof. done. Qed.

(** * The breadcrumb *)

Lemma breadcrumb_is_last (links : list Breadcrumb.Link) (i : nat) :
  Breadcrumb.is_last links i = true ↔ S i = length links.
Proof. unfold Breadcrumb.is_last. rewrite bool_decide_eq_true. lia. Qed.

(** X15. In a rendered breadcrumb the link at index [i] is the active one,
    and the one marked [aria-current="page"], exactly when it is the last;
    a divider follows it exactly when it is not the last; a link before the
    last is inactive when it has a target and plain otherwise. *)
Theorem breadcrumb_items (links : list Breadcrumb.Link) (i : nat)
    (item : Breadcrumb.Item) :
  Breadcrumb.render links !! i = Some item →
  (Breadcrumb.tone item = Breadcrumb.Active ↔ S i = length links)
  ∧ (Breadcrumb.aria_current item = Some "page" ↔ S i = length links)
  ∧ (Breadcrumb.divider item = true ↔ S i < length links)
  ∧ (S i < length links →
     ∃ link, links !! i = Some link
       ∧ Breadcrumb.tone item
         = if truthy (Breadcrumb.to link)
           then Breadcrumb.Inactive else Breadcrumb.Plain).
Proof.
  unfold Breadcrumb.render. rewrite list_lookup_imap.
  destruct (links !! i) as [link|] eqn:Hlink; [|done]. intros [= <-]. cbn.
  pose proof (breadcrumb_is_last links i) as Hlast.
  unfold Breadcrumb.tone_of.
  destruct (Breadcrumb.is_last links i).
  - assert (S i = length links) as Hi by (by apply Hlast).
    rewrite bool_decide_eq_true. repeat split; try done; lia.
  - assert (S i ≠ length links) as Hi by (intros Hi; by apply Hlast in Hi).
    apply lookup_lt_Some in Hlink. rewrite bool_decide_eq_true.
    repeat split; try done; try lia.
    + by destruct (truthy (Breadcrumb.to link)).
    + intros _. by exists link.
Qed.

Lemma breadcrumb_items_witness :
  let links := [Breadcrumb.mk (Str "/") Undefined "Home";
                Breadcrumb.mk Undefined Undefined "Forms";
                Breadcrumb.mk Undefined Undefined "Textarea"] in
  (Breadcrumb.tone (Breadcrumb.item links 2 (Breadcrumb.mk Undefined Undefined
                                               "Textarea"))
   = Breadcrumb.Active ↔ 3 = length links).
Proof.
  exact (proj1 (breadcrumb_items
                  [Breadcrumb.mk (Str "/") Undefined "Home";
                   Breadcrumb.mk Undefined Undefined "Forms";
                   Breadcrumb.mk Undefined Undefined "Textarea"]
                  2 _ eq_refl)).
Defined.

(** The dividers and the current pages of the items rendered for a suffix
    [rest] of the links, [k] links in. *)
Lemma breadcrumb_suffix_counts (links rest : list Breadcrumb.Link) (k : nat) :
  k + length rest = length links →
  length (filter (λ item, Breadcrumb.divider item = true)
            (imap (λ i, Breadcrumb.item links (k + i)) rest))
  = length rest - 1
  ∧ length (filter (λ item, Breadcrumb.aria_current item = Some "page")
              (imap (λ i, Breadcrumb.item links (k + i)) rest))
    = length rest `min` 1.
Proof.
  revert k. induction rest as [|link rest IH]; intros k Hk; [done|].
  rewrite imap_cons. cbn in Hk.
  rewrite (imap_ext _ (λ i, Breadcrumb.item links (S k + i)) rest)
    by (intros i x _; cbn; f_equal; lia).
  destruct (IH (S k) ltac:(lia)) as [IHd IHc].
  rewrite !filter_cons, Nat.add_0_r. cbn [Breadcrumb.item Breadcrumb.divider
    Breadcrumb.aria_current].
  pose proof (breadcrumb_is_last links k) as Hlast.
  destruct (Breadcrumb.is_last links k).
  - assert (S k = length links) as Hi by (by apply Hlast).
    assert (rest = []) as -> by (apply length_zero_iff_nil; lia).
    rewrite bool_decide_eq_false_2 by lia. cbn. split.
    + by rewrite decide_False.
    + by rewrite decide_True.
  - assert (S k ≠ length links) as Hi by (intros Hi; by apply Hlast in Hi).
    rewrite bool_decide_eq_true_2 by lia.
    rewrite decide_True by done. rewrite decide_False by done.
    cbn [length]. rewrite IHd, IHc. destruct rest; cbn in *; lia.
Qed.

(** X16. A breadcrumb renders one item per link, one divider fewer than
    links (none for an empty or a single-link trail), and exactly one
    current page as soon as there is a link. *)
Theorem breadcrumb_counts (links : list Breadcrumb.Link) :
  length (Breadcrumb.render links) = length links
  ∧ length (filter (λ item, Breadcrumb.divider item = true)
              (Breadcrumb.render links))
    = length links - 1
  ∧ length (filter (λ item, Breadcrumb.aria_current item = Some "page")
              (Breadcrumb.render links))
    = length links `min` 1.
Proof.
  unfold Breadcrumb.render. split; [apply length_imap|].
  exact (breadcrumb_suffix_counts links links 0 eq_refl).
Qed.
